(** * tk-core: the [get_entity_commands] action and the [max_publish_file] hook

    A shallow embedding of
    - [python/tank/deploy/tank_commands/get_entity_commands.py]
      (class [GetEntityCommandsAction]) and
    - [starter_configs/sg_step_above_entity/hooks/max_publish_file.py]
      (class [MaxPubPublishFile]),
    and the properties of their specification.

    Both files are Python 2 (the hook writes the octal literal [0444]), so a
    [str] is a sequence of 8-bit characters: it is modelled by [string], whose
    characters are [ascii] bytes. *)

From Stdlib Require Import ZArith String Ascii List Bool Lia.
From stdpp Require Import base option list gmap strings pretty.

(** * Part I: the programs *)

(** ** Python 2 [str] primitives used by the two files *)

Module PyStr.

(** Line feed, carriage return and the double quote. *)
Definition LF : ascii := "010"%char.
Definition CR : ascii := "013"%char.
Definition DQUOTE : ascii := "034"%char.

Definition nl : string := String LF "".
Definition dquote : string := String DQUOTE "".

(** [s.split(sep)] for a one-character separator: every occurrence of [sep]
    ends a token, so the result has one more token than [s] has separators
    and is never empty ([''.split('$') == ['']]). *)
Fixpoint split (sep : ascii) (s : string) : list string :=
  match s with
  | EmptyString => [""]
  | String c rest =>
      if Ascii.eqb c sep then "" :: split sep rest
      else match split sep rest with
           | tok :: toks => String c tok :: toks
           | [] => [String c ""]
           end
  end.

(** [s.splitlines()] on a byte string: the line boundaries are LF, CR and
    CR LF; the boundary is dropped, and a text that ends in a boundary has
    no empty last line ([''.splitlines() == []],
    ['a\n'.splitlines() == ['a']], ['\n'.splitlines() == ['']]). *)
Fixpoint splitlines (s : string) : list string :=
  match s with
  | EmptyString => []
  | String c rest =>
      if Ascii.eqb c LF then "" :: splitlines rest
      else if Ascii.eqb c CR then
        match rest with
        | String c' rest' =>
            if Ascii.eqb c' LF then "" :: splitlines rest'
            else "" :: splitlines rest
        | EmptyString => [""]
        end
      else match splitlines rest with
           | line :: lines => String c line :: lines
           | [] => [String c ""]
           end
  end.

(** [s.lower()] in the C locale: only [A]..[Z] change. *)
Definition lower_char (c : ascii) : ascii :=
  let n := N_of_ascii c in
  if (65 <=? n)%N && (n <=? 90)%N then ascii_of_N (n + 32) else c.

Fixpoint lower (s : string) : string :=
  match s with
  | EmptyString => EmptyString
  | String c rest => String (lower_char c) (lower rest)
  end.

(** [s.startswith(p)]. *)
Definition startswith (s p : string) : bool := String.prefix p s.

(** [s.endswith(p)] for a one-character [p]. *)
Fixpoint ends_with (c : ascii) (s : string) : bool :=
  match s with
  | EmptyString => false
  | String c' EmptyString => Ascii.eqb c' c
  | String _ rest => ends_with c rest
  end.

(** [str(n)] of an integer: its decimal numeral, with a leading [-] when
    negative. *)
Definition str_of_int (n : Z) : string := pretty n.

End PyStr.

(** ** Exceptions, and the state-and-exception monad

    A computation reads and writes a state of type [S] and either returns a
    value or raises an exception of type [E]; the state reached when the
    exception was raised is kept, as in Python. *)

Inductive result (E A : Type) : Type :=
| Returned (a : A)
| Raised (e : E).
Arguments Returned {E A} a.
Arguments Raised {E A} e.

Definition M (E S A : Type) : Type := S → result E A * S.

Definition ret {E S A} (a : A) : M E S A := λ st, (Returned a, st).

Definition raise {E S A} (e : E) : M E S A := λ st, (Raised e, st).

Definition bind {E S A B} (m : M E S A) (k : A → M E S B) : M E S B :=
  λ st, match m st with
        | (Returned a, st') => k a st'
        | (Raised e, st') => (Raised e, st')
        end.

(** [try: m  except ...: handler]. The handler answers [None] for an
    exception that no [except] clause of the statement matches: it
    propagates. *)
Definition try_except {E S A} (m : M E S A) (handler : E → option (M E S A))
    : M E S A :=
  λ st, match m st with
        | (Returned a, st') => (Returned a, st')
        | (Raised e, st') =>
            match handler e with
            | Some h => h st'
            | None => (Raised e, st')
            end
        end.

(** A function that does not touch the state, called from one that does. *)
Definition lift {E S A} (r : result E A) : M E S A := λ st, (r, st).

Global Instance M_ret {E S} : MRet (M E S) := λ A a, ret a.
Global Instance M_bind {E S} : MBind (M E S) := λ A B k m, bind m k.

(** ** The [get_entity_commands] action *)

(** The exception of [tank.deploy.util] that carries the exit status and the
    output of a command that failed. *)
Record SubprocessCalledProcessError : Type := mkSubprocessError {
  returncode : Z;
  cmd : list string;
  output : string
}.

(** The exceptions of the action. *)
Inductive exn : Type :=
| TankError (msg : string)
| SubprocessError (e : SubprocessCalledProcessError)
| IndexError.

(** An entity is the tuple [(entity_type, entity_id)]. *)
Abbreviation entity := (string * Z)%type.

(** A command of the cache: the dictionary
    [{ "name": name, "title": title, "icon": icon }]. *)
Record Command : Type := mkCommand {
  name : string;
  title : string;
  icon : string
}.

Global Instance Command_eq_dec : EqDecision Command.
Proof. solve_decision. Defined.

(** One call of [execute_toolkit_command]: the pipeline configuration, the
    command and its arguments. *)
Record Invocation : Type := mkInvocation {
  inv_pc_path : string;
  inv_command : string;
  inv_args : list string
}.

Global Instance Invocation_eq_dec : EqDecision Invocation.
Proof. solve_decision. Defined.

Module GetEntityCommandsAction.
Import PyStr.

Definition _ERROR_CODE_CACHE_OUT_OF_DATE : Z := 1.
Definition _ERROR_CODE_CACHE_NOT_FOUND : Z := 2.

(** *** [_get_cache_name] and [_get_env_name] *)

Definition _get_cache_name (platform entity_type : string) : string :=
  let platform_name :=
    if String.eqb platform "darwin" then "mac"
    else if String.eqb platform "win32" then "windows"
    else if startswith platform "linux" then "linux"
    else platform in
  lower ("shotgun_" +:+ platform_name +:+ "_" +:+ entity_type
           +:+ "_detailed.txt").

Definition _get_env_name (entity_type : string) : string :=
  "shotgun_" +:+ lower entity_type +:+ ".yml".

(** *** [_parse_cached_commands] *)

(** The message of the [TankError] raised on a line with too few tokens:
    ["The cache is missing tokens on the line \"%s\".\nFull cache:\n%s"
      % (line, commands_data)]. *)
Definition missing_tokens_message (line commands_data : string) : string :=
  "The cache is missing tokens on the line " +:+ dquote +:+ line +:+ dquote
    +:+ "." +:+ nl +:+ "Full cache:" +:+ nl +:+ commands_data.

(** The loop [for line in lines], with [commands] the list built so far.
    Indexing a list out of range raises [IndexError]. *)
Fixpoint parse_lines (commands_data : string) (lines : list string)
    (commands : list Command) : result exn (list Command) :=
  match lines with
  | [] => Returned commands
  | line :: lines' =>
      let tokens := split "$" line in
      if length tokens <? 5 then
        Raised (TankError (missing_tokens_message line commands_data))
      else
        match tokens !! 0, tokens !! 1, tokens !! 4 with
        | Some name, Some title, Some icon =>
            parse_lines commands_data lines'
              (commands ++ [mkCommand name title icon])
        | _, _, _ => Raised IndexError
        end
  end.

Definition _parse_cached_commands (commands_data : string)
    : result exn (list Command) :=
  let lines := splitlines commands_data in
  parse_lines commands_data lines [].

(** *** [itertools.groupby(entities, operator.itemgetter(0))]

    One group per maximal run of consecutive entities of equal type, in
    the order of the list; the action turns every group into a list before
    it asks for the next one, so the lazy iterator is the list of its
    groups. *)
Fixpoint groupby (entities : list entity) : list (string * list entity) :=
  match entities with
  | [] => []
  | e :: rest =>
      match groupby rest with
      | (key, group) :: groups =>
          if String.eqb e.1 key then (key, e :: group) :: groups
          else (e.1, [e]) :: (key, group) :: groups
      | [] => [(e.1, [e])]
      end
  end.

Section WithToolkit.

(** The other pipeline configuration is an external process. Its state
    (its cache files among them) is a [World]; [toolkit pc command args]
    is what [tank.deploy.util.execute_toolkit_command] does in a world:
    it returns the output of the command, or raises
    [SubprocessCalledProcessError], and leaves a new world. *)
Variable World : Type.
Variable toolkit :
  string → string → list string → World →
  (string + SubprocessCalledProcessError) * World.

(** [str(e)] of a [SubprocessCalledProcessError], and [sys.platform]. *)
Variable str_of_error : SubprocessCalledProcessError → string.
Variable platform : string.

(** The state of a run: the world, the calls made so far (oldest
    first), and what was given to [log.error]. *)
Record State : Type := mkState {
  world : World;
  calls : list Invocation;
  logged : list string
}.

Definition execute_toolkit_command (pipeline_config_path command : string)
    (args : list string) : M exn State string :=
  λ st,
    let '(r, w) := toolkit pipeline_config_path command args (world st) in
    let st' :=
      mkState w
        (calls st ++ [mkInvocation pipeline_config_path command args])
        (logged st) in
    match r with
    | inl out => (Returned out, st')
    | inr e => (Raised (SubprocessError e), st')
    end.

Definition log_error (msg : string) : M exn State unit :=
  λ st, (Returned (), mkState (world st) (calls st) (logged st ++ [msg])).

(** The three [TankError] messages of [_load_cached_data], each
    ["...Details: %s\nOutput: %s" % (e, e.output)]. *)
Definition details (headline : string) (e : SubprocessCalledProcessError)
    : string :=
  headline +:+ nl +:+ "Details: " +:+ str_of_error e +:+ nl
    +:+ "Output: " +:+ output e.

Definition get_failed_message :=
  details "Error while trying to get the cache content.".
Definition update_failed_message := details "Failed to update the cache.".
Definition reload_failed_message :=
  details "Failed to get the content of the updated cache.".

(** [except SubprocessCalledProcessError as e: body]. *)
Definition except_subprocess {A}
    (body : SubprocessCalledProcessError → M exn State A)
    : exn → option (M exn State A) :=
  λ ex, match ex with
        | SubprocessError e => Some (body e)
        | _ => None
        end.

(** *** [_load_cached_data] *)

Definition _load_cached_data (pipeline_config_path entity_type : string)
    (entities : list entity) : M exn State string :=
  let cache_name := _get_cache_name platform entity_type in
  let env_name := _get_env_name entity_type in
  (* try to load the data right away if it is already cached;
     [Some] is the [return] of the [try] body *)
  cached ←
    try_except
      (out ← execute_toolkit_command pipeline_config_path
               "shotgun_get_actions" [cache_name; env_name];
       mret (Some out))
      (except_subprocess (λ e,
         if bool_decide (returncode e ∈ [_ERROR_CODE_CACHE_OUT_OF_DATE;
                                         _ERROR_CODE_CACHE_NOT_FOUND])
         then mret None
         else raise (TankError (get_failed_message e))));
  match cached with
  | Some out => mret out
  | None =>
      (* cache is not up to date - update it *)
      try_except
        (entity_id ←
           match entities !! 0 with
           | Some e => mret e.2
           | None => raise IndexError
           end;
         execute_toolkit_command pipeline_config_path
           "shotgun_cache_actions"
           [entity_type; cache_name; str_of_int entity_id];;
         mret ())
        (except_subprocess (λ _,
           try_except
             (execute_toolkit_command pipeline_config_path
                "shotgun_cache_actions" [entity_type; cache_name];;
              mret ())
             (except_subprocess (λ e,
                raise (TankError (update_failed_message e))))));;
      (* now that the cache is updated, load the data again *)
      try_except
        (execute_toolkit_command pipeline_config_path
           "shotgun_get_actions" [cache_name; env_name])
        (except_subprocess (λ e,
           raise (TankError (reload_failed_message e))))
  end.

(** *** [run_interactive] and [run_noninteractive] *)

Definition run_interactive : M exn State unit :=
  raise (TankError "This Action does not support command line access").

(** ["Failed to fetch the commands from the Pipeline Configuration at %s
     for the entity type %s.\nDetails: %s"
     % (pipeline_config_path, entity_type, e)]. *)
Definition fetch_failed_message (pipeline_config_path entity_type
    details : string) : string :=
  "Failed to fetch the commands from the Pipeline Configuration at "
    +:+ pipeline_config_path +:+ " for the entity type " +:+ entity_type
    +:+ "." +:+ nl +:+ "Details: " +:+ details.

(** [for entity in entities_of_type:
       commands_per_entity[entity] = commands]. *)
Definition assign (commands : list Command) (entities_of_type : list entity)
    (commands_per_entity : gmap entity (list Command))
    : gmap entity (list Command) :=
  foldl (λ m entity, <[entity := commands]> m)
    commands_per_entity entities_of_type.

(** The body of the loop over the groups. Every assignment to the
    dictionary comes after the two calls that can raise, so the
    dictionary a handler sees is the one the iteration started with. *)
Definition handle_group (pipeline_config_path : string)
    (commands_per_entity : gmap entity (list Command))
    (group : string * list entity)
    : M exn State (gmap entity (list Command)) :=
  let '(entity_type, entities_of_type) := group in
  try_except
    (cache_content ← _load_cached_data pipeline_config_path entity_type
                       entities_of_type;
     commands ← lift (_parse_cached_commands cache_content);
     mret (assign commands entities_of_type commands_per_entity))
    (λ ex, match ex with
           | TankError msg =>
               Some (log_error (fetch_failed_message pipeline_config_path
                                  entity_type msg);;
                     mret commands_per_entity)
           | _ => None
           end).

Fixpoint for_groups (pipeline_config_path : string)
    (per_entity_type : list (string * list entity))
    (commands_per_entity : gmap entity (list Command))
    : M exn State (gmap entity (list Command)) :=
  match per_entity_type with
  | [] => mret commands_per_entity
  | group :: groups =>
      commands_per_entity' ←
        handle_group pipeline_config_path commands_per_entity group;
      for_groups pipeline_config_path groups commands_per_entity'
  end.

(** [parameters["pc_path"]] and [parameters["entities"]] are the two
    arguments. *)
Definition run_noninteractive (pipeline_config_path : string)
    (entities : list entity) : M exn State (gmap entity (list Command)) :=
  let per_entity_type := groupby entities in
  for_groups pipeline_config_path per_entity_type ∅.

End WithToolkit.

Arguments mkState {World} world calls logged.
Arguments world {World} s.
Arguments calls {World} s.
Arguments logged {World} s.
Arguments execute_toolkit_command {World} toolkit _ _ _.
Arguments log_error {World} msg.
Arguments run_interactive {World}.
Arguments _load_cached_data {World} toolkit str_of_error platform _ _ _.
Arguments handle_group {World} toolkit str_of_error platform _ _ _.
Arguments for_groups {World} toolkit str_of_error platform _ _ _.
Arguments run_noninteractive {World} toolkit str_of_error platform _ _.

End GetEntityCommandsAction.

(** ** The [max_publish_file] hook *)

Module MaxPubPublishFile.
Import PyStr.

(** The hook calls [shutil.copy] and [os.chmod] of Python 2 on a POSIX
    system. The file system has regular files and directories and no
    links. A location is the list of the names that lead from the root
    to an entry, the root being the empty list, and the file system maps
    the locations that exist to what is there: a regular file with its
    content and permission bits, or a directory with its permission
    bits. Without links a location is one file, as a device and inode
    number is: two paths name the same file when they resolve to the
    same location. *)
Abbreviation location := (list string).

Inductive node : Type :=
| File (content : string) (mode : Z)
| Dir (mode : Z).

Global Instance node_eq_dec : EqDecision node.
Proof. solve_decision. Defined.

Definition set_mode (n : node) (m : Z) : node :=
  match n with
  | File content _ => File content m
  | Dir _ => Dir m
  end.

Definition mode_of (n : node) : Z :=
  match n with
  | File _ m => m
  | Dir m => m
  end.

(** [stat.S_ISDIR], and the same of what a location holds. *)
Definition S_ISDIR (n : node) : bool :=
  match n with
  | File _ _ => false
  | Dir _ => true
  end.

Definition is_dir (entry : option node) : bool :=
  match entry with
  | Some n => S_ISDIR n
  | None => false
  end.

(** The exceptions of [shutil] and [os], and the [TypeError] of a path
    that holds a NUL character. *)
Inductive os_exn : Type :=
| IOError
| OSError
| ShutilError
| TypeError.

Inductive access : Type :=
| ReadAccess
| WriteAccess
| ChmodAccess
| SearchAccess.

(** [posixpath.basename] and [posixpath.join], on the path strings. *)
Definition basename (p : string) : string := List.last (split "/" p) "".

Definition join (a b : string) : string :=
  if startswith b "/" then b
  else if String.eqb a "" || ends_with "/" a then a +:+ b
  else a +:+ "/" +:+ b.

(** [0444], and [stat.S_IMODE]. *)
Definition mode_0444 : Z := 4 * 64 + 4 * 8 + 4.
Definition S_IMODE (m : Z) : Z := Z.land m 4095.

Definition NUL : ascii := "000"%char.

Fixpoint has_nul (s : string) : bool :=
  match s with
  | EmptyString => false
  | String c s' => Ascii.eqb c NUL || has_nul s'
  end.

Section WithOS.

(** Whether the operating system lets the calling process read the file
    at a location, open a location for writing (truncate the file there,
    or create one), change the permission bits there, and search the
    directory there; the [umask] of the process; and its current
    directory. *)
Variable permitted : gmap location node → access → location → bool.
Variable umask : Z.
Variable cwd : location.

Abbreviation FS := (M os_exn (gmap location node)).

(** Path resolution, name by name from the location [cur]. A name
    follows a directory only. The empty name, of two slashes in a row or
    of a slash at the end, stays where it is. Another name is looked up,
    which takes the permission to search the directory: [.] is the
    directory itself, [..] its parent, which for the root is the root,
    and any other name the location below. The location of the last name
    need not exist. *)
Fixpoint walk (fs : gmap location node) (cur : location)
    (names : list string) : option location :=
  match names with
  | [] => Some cur
  | name :: names' =>
      if is_dir (fs !! cur) then
        if String.eqb name "" then walk fs cur names'
        else if permitted fs SearchAccess cur then
          if String.eqb name "." then walk fs cur names'
          else if String.eqb name ".." then walk fs (removelast cur) names'
          else walk fs (cur ++ [name]) names'
        else None
      else None
  end.

(** The location a path names: from the root when the path starts with a
    slash, from the current directory otherwise. The empty path and a
    path with a NUL character name nothing. *)
Definition resolve (path : string) (fs : gmap location node)
    : option location :=
  if String.eqb path "" || has_nul path then None
  else match split "/" path with
       | "" :: names => walk fs [] names
       | names => walk fs cwd names
       end.

(** [os.stat(path)]: the location, which stands for [st_dev] and
    [st_ino], and what is there, which stands for [st_mode]. *)
Definition stat (path : string) : FS (location * node) :=
  λ fs, if has_nul path then (Raised TypeError, fs)
        else match resolve path fs with
             | Some l =>
                 match fs !! l with
                 | Some n => (Returned (l, n), fs)
                 | None => (Raised OSError, fs)
                 end
             | None => (Raised OSError, fs)
             end.

(** [except os.error: return a]. *)
Definition except_OSError {A} (a : A) (e : os_exn) : option (FS A) :=
  match e with
  | OSError => Some (ret a)
  | _ => None
  end.

(** [os.path.isdir(path)]. *)
Definition isdir (path : string) : FS bool :=
  try_except (st ← stat path; ret (S_ISDIR st.2)) (except_OSError false).

(** [os.path.samefile(f1, f2)]. *)
Definition samefile (f1 f2 : string) : FS bool :=
  s1 ← stat f1;
  s2 ← stat f2;
  ret (bool_decide (s1.1 = s2.1)).

(** [shutil._samefile(src, dst)]. *)
Definition _samefile (src dst : string) : FS bool :=
  try_except (samefile src dst) (except_OSError false).

(** [os.chmod(path, mode)]. *)
Definition chmod (path : string) (mode : Z) : FS unit :=
  λ fs, if has_nul path then (Raised TypeError, fs)
        else match resolve path fs with
             | Some l =>
                 match fs !! l with
                 | Some n =>
                     if permitted fs ChmodAccess l
                     then (Returned (), <[l := set_mode n (S_IMODE mode)]> fs)
                     else (Raised OSError, fs)
                 | None => (Raised OSError, fs)
                 end
             | None => (Raised OSError, fs)
             end.

(** [open(path, 'rb')]: the open file is the location. *)
Definition open_rb (path : string) : FS location :=
  λ fs, if has_nul path then (Raised TypeError, fs)
        else match resolve path fs with
             | Some l =>
                 match fs !! l with
                 | Some (File _ _) =>
                     if permitted fs ReadAccess l then (Returned l, fs)
                     else (Raised IOError, fs)
                 | _ => (Raised IOError, fs)
                 end
             | None => (Raised IOError, fs)
             end.

(** [open(path, 'wb')]: an existing file is emptied and keeps its mode,
    a new one gets [0666 & ~umask]. *)
Definition open_wb (path : string) : FS location :=
  λ fs, if has_nul path then (Raised TypeError, fs)
        else match resolve path fs with
             | Some l =>
                 match fs !! l with
                 | Some (Dir _) => (Raised IOError, fs)
                 | Some (File _ m) =>
                     if permitted fs WriteAccess l
                     then (Returned l, <[l := File "" m]> fs)
                     else (Raised IOError, fs)
                 | None =>
                     if permitted fs WriteAccess l
                     then (Returned l,
                           <[l := File "" (Z.land 438 (Z.lnot umask))]> fs)
                     else (Raised IOError, fs)
                 end
             | None => (Raised IOError, fs)
             end.

(** [shutil.copyfileobj(fsrc, fdst)] on the two open files. *)
Definition copyfileobj (fsrc fdst : location) : FS unit :=
  λ fs, match fs !! fsrc, fs !! fdst with
        | Some (File content _), Some (File _ m) =>
            (Returned (), <[fdst := File content m]> fs)
        | _, _ => (Raised IOError, fs)
        end.

(** [shutil.copyfile(src, dst)]. Its test for named pipes is left out:
    the file systems here have none. *)
Definition copyfile (src dst : string) : FS unit :=
  same ← _samefile src dst;
  if (same : bool) then raise ShutilError
  else
    fsrc ← open_rb src;
    fdst ← open_wb dst;
    copyfileobj fsrc fdst.

(** [shutil.copymode(src, dst)]. *)
Definition copymode (src dst : string) : FS unit :=
  st ← stat src;
  chmod dst (S_IMODE (mode_of st.2)).

(** [shutil.copy(src, dst)]. *)
Definition copy (src dst : string) : FS unit :=
  d ← isdir dst;
  let dst := if (d : bool) then join dst (basename src) else dst in
  copyfile src dst;;
  copymode src dst.

(** [MaxPubPublishFile.execute]. *)
Definition execute (source_path target_path : string) : FS unit :=
  copy source_path target_path;;
  (* make it readonly *)
  chmod target_path mode_0444.

End WithOS.

End MaxPubPublishFile.

(** ** Vocabulary of the properties *)

Module Vocabulary.
Import PyStr GetEntityCommandsAction.

(** A line of the cache with the five tokens the parser asks for. *)
Definition well_formed_line (line : string) : Prop :=
  5 ≤ length (split "$" line).

Global Instance well_formed_line_dec line : Decision (well_formed_line line).
Proof. unfold well_formed_line. apply _. Defined.

(** The record [c] holds tokens 0, 1 and 4 of [line]. *)
Definition record_of_line (line : string) (c : Command) : Prop :=
  split "$" line !! 0 = Some (name c) ∧
  split "$" line !! 1 = Some (title c) ∧
  split "$" line !! 4 = Some (icon c).

(** The calls of [_load_cached_data]: the request for the content of the
    cache, and the request for a rebuild under the new calling convention
    (with the identifier of an entity) and under the old one. *)
Definition get_actions_call (platform pc_path entity_type : string)
    : Invocation :=
  mkInvocation pc_path "shotgun_get_actions"
    [_get_cache_name platform entity_type; _get_env_name entity_type].

Definition new_convention_call (platform pc_path entity_type : string)
    (entity_id : Z) : Invocation :=
  mkInvocation pc_path "shotgun_cache_actions"
    [entity_type; _get_cache_name platform entity_type;
     str_of_int entity_id].

Definition old_convention_call (platform pc_path entity_type : string)
    : Invocation :=
  mkInvocation pc_path "shotgun_cache_actions"
    [entity_type; _get_cache_name platform entity_type].

(** A call that asks for a rebuild of the cache. *)
Definition is_rebuild (inv : Invocation) : Prop :=
  inv_command inv = "shotgun_cache_actions".

Global Instance is_rebuild_dec inv : Decision (is_rebuild inv).
Proof. unfold is_rebuild. apply _. Defined.

(** The exit statuses that mean that the cache is out of date or missing. *)
Definition stale (e : SubprocessCalledProcessError) : Prop :=
  returncode e = 1%Z ∨ returncode e = 2%Z.

(** Entities of equal type are next to each other: the type of an entity
    is the type of the entity that follows it, or is not seen again. *)
Fixpoint contiguous_types (entities : list entity) : bool :=
  match entities with
  | [] => true
  | e :: rest =>
      (match rest with
       | e' :: _ => String.eqb e.1 e'.1
       | [] => false
       end
       || negb (existsb (λ e', String.eqb e.1 e'.1) rest))
      && contiguous_types rest
  end.

(** The number of entity types of a list, and the number of command
    lists, different by content, of a result. *)
Definition count_types (entities : list entity) : nat :=
  length (remove_dups entities.*1).

Definition count_command_lists (m : gmap entity (list Command)) : nat :=
  length (remove_dups (map_to_list m).*2).

(** A group with what fetching its commands gave. *)
Abbreviation attempt :=
  ((string * list entity) * result exn (list Command))%type.

Section Attempts.

Context {World : Type}.
Variable toolkit :
  string → string → list string → World →
  (string + SubprocessCalledProcessError) * World.
Variable str_of_error : SubprocessCalledProcessError → string.
Variable platform : string.

(** What [run_noninteractive] tries for a group: load the cache of its
    type and parse it. *)
Definition fetch (pc_path entity_type : string) (entities : list entity)
    : M exn (State World) (list Command) :=
  cache_content ← _load_cached_data toolkit str_of_error platform pc_path
                     entity_type entities;
  lift (_parse_cached_commands cache_content).

(** The groups in the order they are handled, each with what [fetch]
    gave for it in the state reached when its turn came: the state the
    group before it left, with the message logged if that one failed
    with [TankError]. *)
Fixpoint attempts (pc_path : string) (groups : list (string * list entity))
    (st : State World) : list attempt :=
  match groups with
  | [] => []
  | (entity_type, entities) :: groups' =>
      let '(r, st1) := fetch pc_path entity_type entities st in
      let st2 :=
        match r with
        | Raised (TankError msg) =>
            (log_error (fetch_failed_message pc_path entity_type msg)
               st1).2
        | _ => st1
        end in
      ((entity_type, entities), r) :: attempts pc_path groups' st2
  end.

End Attempts.

(** A group whose commands were fetched, and one for which [TankError]
    was raised. *)
Definition succeeded (a : attempt) : Prop :=
  ∃ commands, a.2 = Returned commands.

Definition failed (a : attempt) : Prop :=
  ∃ msg, a.2 = Raised (TankError msg).

(** The messages logged for the groups that failed. *)
Definition failure_messages (pc_path : string) (att : list attempt)
    : list string :=
  omap (λ a, match a.2 with
             | Raised (TankError msg) =>
                 Some (fetch_failed_message pc_path a.1.1 msg)
             | _ => None
             end) att.

(** The commands of the last group with [e] that succeeded, after
    [found]. *)
Definition last_success_from (e : entity) (found : option (list Command))
    (att : list attempt) : option (list Command) :=
  foldl (λ found a,
           match a.2 with
           | Returned commands =>
               if bool_decide (e ∈ a.1.2) then Some commands else found
           | Raised _ => found
           end) found att.

Definition last_success (e : entity) := last_success_from e None.

(** Whether the character [c] occurs in [s], and how many times. *)
Fixpoint occurs (c : ascii) (s : string) : bool :=
  match s with
  | EmptyString => false
  | String c' rest => Ascii.eqb c' c || occurs c rest
  end.

Fixpoint count_char (c : ascii) (s : string) : nat :=
  match s with
  | EmptyString => 0
  | String c' rest => (if Ascii.eqb c' c then 1 else 0) + count_char c rest
  end.

(** A text free of [$], line feed and carriage return. *)
Definition plain (s : string) : Prop :=
  occurs "$" s = false ∧ occurs LF s = false ∧ occurs CR s = false.

(** Two lines with the same tokens 0, 1 and 4. *)
Definition same_fields (line1 line2 : string) : Prop :=
  split "$" line1 !! 0 = split "$" line2 !! 0 ∧
  split "$" line1 !! 1 = split "$" line2 !! 1 ∧
  split "$" line1 !! 4 = split "$" line2 !! 4.

(** The list is in the order of the entity types (the order of Python on
    byte strings), as [sorted(entities)] leaves it. *)
Fixpoint sorted_by_type (entities : list entity) : bool :=
  match entities with
  | [] => true
  | e :: rest =>
      forallb (λ e', String.leb e.1 e'.1) rest && sorted_by_type rest
  end.

(** The mode of the file that [open(path, 'wb')] leaves at a location:
    the mode the file had, or [0666 & ~umask] for a new file. *)
Definition mode_after_open (fs : gmap (list string) MaxPubPublishFile.node)
    (umask : Z) (l : list string) : Z :=
  match fs !! l with
  | Some n => MaxPubPublishFile.mode_of n
  | None => Z.land 438 (Z.lnot umask)
  end.

(** Writing the file at a location, or changing its mode, leaves the
    directories that the process may search as they were. *)
Definition search_unchanged
    (permitted : gmap (list string) MaxPubPublishFile.node →
                 MaxPubPublishFile.access → list string → bool)
    (fs : gmap (list string) MaxPubPublishFile.node) (l : list string)
    : Prop :=
  ∀ (content : string) (mode : Z) (l' : list string),
    permitted (<[l := MaxPubPublishFile.File content mode]> fs)
      MaxPubPublishFile.SearchAccess l'
    = permitted fs MaxPubPublishFile.SearchAccess l'.

End Vocabulary.

(** ** Simulated toolkits and file systems for the examples *)

Module Scenario.
Import PyStr GetEntityCommandsAction.

(** A scripted toolkit: the world is the list of the answers still to
    come, each call takes the next one; a call past the end of the script
    fails with exit status 3. *)
Abbreviation reply := (string + SubprocessCalledProcessError)%type.

Definition ok (out : string) : reply := inl out.
Definition exit_with (code : Z) : reply :=
  inr (mkSubprocessError code [] "").

Definition scripted (pc command : string) (args : list string)
    (script : list reply) : reply * list reply :=
  match script with
  | r :: script' => (r, script')
  | [] => (exit_with 3, [])
  end.

(** ["Command failed with exit status <n>"]. *)
Definition str_of_error (e : SubprocessCalledProcessError) : string :=
  "Command failed with exit status " +:+ str_of_int (returncode e).

Definition start (script : list reply) : State (list reply) :=
  mkState script [] [].

Definition run (script : list reply) (entities : list entity) :=
  run_noninteractive scripted str_of_error "linux2" "/pc" entities
    (start script).

Definition load (script : list reply) (entity_type : string)
    (entities : list entity) :=
  _load_cached_data scripted str_of_error "linux2" "/pc" entity_type
    entities (start script).

Definition shot_cache : string :=
  "launch_maya$Launch Maya$$$/icons/maya.png" +:+ nl
    +:+ "publish$Publish...$$$/icons/publish.png" +:+ nl.

Definition task_cache : string :=
  "launch_nuke$Launch Nuke$$$/icons/nuke.png" +:+ nl.

Definition new_shot_cache : string :=
  "launch_houdini$Launch Houdini$$$/icons/houdini.png" +:+ nl.

(** A file system with a scene file in [/work] and a directory [/publish]
    of published files, and an operating system that permits everything;
    the modes are [0644] and [0755], the umask is [022] and the current
    directory is [/work]. *)
Definition studio : gmap (list string) MaxPubPublishFile.node :=
  <[["work"; "scene.max"] := MaxPubPublishFile.File "3ds max scene" 420]>
    (<[["work"] := MaxPubPublishFile.Dir 493]>
       (<[["publish"] := MaxPubPublishFile.Dir 493]>
          (<[[] := MaxPubPublishFile.Dir 493]> ∅))).

Definition permissive (fs : gmap (list string) MaxPubPublishFile.node)
    (a : MaxPubPublishFile.access) (l : list string) : bool := true.

Definition publish (source_path target_path : string) :=
  MaxPubPublishFile.execute permissive 18 ["work"] source_path target_path
    studio.

(** An operating system that goes by the permission bits of the owner: a
    file is read with bit [0400] and written with bit [0200], a directory
    is searched with bit [0100], a location that holds nothing yet can be
    created, and modes can be changed. *)
Definition owner_bits (fs : gmap (list string) MaxPubPublishFile.node)
    (a : MaxPubPublishFile.access) (l : list string) : bool :=
  match a, fs !! l with
  | MaxPubPublishFile.ReadAccess, Some n =>
      Z.testbit (MaxPubPublishFile.mode_of n) 8
  | MaxPubPublishFile.ReadAccess, None => false
  | MaxPubPublishFile.WriteAccess, Some n =>
      Z.testbit (MaxPubPublishFile.mode_of n) 7
  | MaxPubPublishFile.WriteAccess, None => true
  | MaxPubPublishFile.ChmodAccess, _ => true
  | MaxPubPublishFile.SearchAccess, Some n =>
      Z.testbit (MaxPubPublishFile.mode_of n) 6
  | MaxPubPublishFile.SearchAccess, None => false
  end.

(** The studio after [scene_v001.max] was published. *)
Definition published : gmap (list string) MaxPubPublishFile.node :=
  <[["publish"; "scene_v001.max"] :=
      MaxPubPublishFile.File "3ds max scene" MaxPubPublishFile.mode_0444]>
    studio.


End Scenario.

(** * Part II: properties *)

Import PyStr GetEntityCommandsAction Vocabulary.

(** ** Strings *)

Section StringFacts.

Lemma string_append_assoc (a b c : string) :
  (a +:+ b) +:+ c = a +:+ (b +:+ c).
Proof.
  induction a as [|x a IH]; [done|].
  change (String x ((a +:+ b) +:+ c) = String x (a +:+ (b +:+ c))).
  by rewrite IH.
Qed.

End StringFacts.

(** ** Parsing the cache *)

Section ParseFacts.

Lemma parse_lines_well_formed data lines acc :
  Forall well_formed_line lines →
  ∃ cmds, parse_lines data lines acc = Returned (acc ++ cmds) ∧
          Forall2 record_of_line lines cmds.
Proof.
  intros H. revert acc. induction H as [|line lines Hl Hls IH]; intros acc.
  - exists []. rewrite app_nil_r. split; [done|constructor].
  - simpl. unfold well_formed_line in Hl.
    destruct (Nat.ltb_spec (length (split "$" line)) 5); [lia|].
    destruct (split "$" line) as [|t0 [|t1 [|t2 [|t3 [|t4 ts]]]]] eqn:E;
      simpl in *; try lia.
    destruct (IH (acc ++ [mkCommand t0 t1 t4])) as (cmds & -> & HF).
    exists (mkCommand t0 t1 t4 :: cmds). rewrite <- app_assoc.
    split; [done|]. constructor; [|done].
    unfold record_of_line. rewrite E. done.
Qed.

Lemma parse_lines_malformed data good line rest acc :
  Forall well_formed_line good → ¬ well_formed_line line →
  parse_lines data (good ++ line :: rest) acc
  = Raised (TankError (missing_tokens_message line data)).
Proof.
  intros H. revert acc. induction H as [|l ls Hl Hls IH]; intros acc Hbad.
  - simpl. unfold well_formed_line in Hbad.
    destruct (Nat.ltb_spec (length (split "$" line)) 5); [done|lia].
  - simpl. unfold well_formed_line in Hl.
    destruct (Nat.ltb_spec (length (split "$" l)) 5); [lia|].
    destruct (split "$" l) as [|t0 [|t1 [|t2 [|t3 [|t4 ts]]]]] eqn:E;
      simpl in *; try lia.
    by apply IH.
Qed.

(** The lines before the first malformed one are well formed. *)
Lemma first_malformed (lines : list string) :
  Exists (λ line, ¬ well_formed_line line) lines →
  ∃ good line rest, lines = good ++ line :: rest ∧
    Forall well_formed_line good ∧ ¬ well_formed_line line.
Proof.
  induction lines as [|l ls IH]; intros H; [by apply Exists_nil in H|].
  destruct (decide (well_formed_line l)) as [Hl|Hl].
  - apply Exists_cons in H as [H|H]; [done|].
    destruct (IH H) as (good & line & rest & -> & Hgood & Hline).
    exists (l :: good), line, rest. by repeat constructor.
  - exists [], l, ls. by repeat constructor.
Qed.

(** The parser returns a list or raises the [TankError] of a line. *)
Lemma parse_lines_cases data lines acc :
  (∃ cmds, parse_lines data lines acc = Returned cmds) ∨
  (∃ line, line ∈ lines ∧
     parse_lines data lines acc
     = Raised (TankError (missing_tokens_message line data))).
Proof.
  destruct (decide (Exists (λ line, ¬ well_formed_line line) lines)) as [H|H].
  - right. apply first_malformed in H as (good & line & rest & -> & Hg & Hl).
    exists line. split; [set_solver|]. by apply parse_lines_malformed.
  - left. apply not_Exists_Forall in H; [|apply _].
    destruct (parse_lines_well_formed data lines acc) as (cmds & -> & _); eauto.
    eapply Forall_impl; [exact H|]. simpl. intros l Hl.
    by destruct (decide (well_formed_line l)).
Qed.

Lemma splitlines_String c rest :
  splitlines (String c rest) =
    if Ascii.eqb c LF then "" :: splitlines rest
    else if Ascii.eqb c CR then
      match rest with
      | String c' rest' =>
          if Ascii.eqb c' LF then "" :: splitlines rest'
          else "" :: splitlines rest
      | EmptyString => [""]
      end
    else match splitlines rest with
         | line :: lines => String c line :: lines
         | [] => [String c ""]
         end.
Proof. reflexivity. Qed.

Lemma splitlines_app_nl s :
  s ≠ "" → ends_with LF s = false → splitlines (s +:+ nl) = splitlines s.
Proof.
  remember (String.length s) as n eqn:Hn. revert s Hn.
  induction n as [n IH] using lt_wf_ind. intros s Hn Hne Hend.
  destruct s as [|c s]; [done|].
  destruct s as [|c' s'].
  - simpl in Hend.
    change (splitlines (String c (String LF "")) = splitlines (String c "")).
    cbn [splitlines]. rewrite Hend.
    change (Ascii.eqb LF LF) with true. cbn iota.
    destruct (Ascii.eqb c CR); reflexivity.
  - assert (Hrec : ∀ t, t ≠ "" → ends_with LF t = false →
              String.length t < n → splitlines (t +:+ nl) = splitlines t).
    { intros t ? ? ?. by eapply IH. }
    assert (Hend' : ends_with LF (String c' s') = false) by exact Hend.
    simpl in Hn.
    change (String c (String c' s') +:+ nl)
      with (String c (String c' s' +:+ nl)).
    rewrite !(splitlines_String c).
    rewrite (Hrec (String c' s')) by (done || (simpl; lia)).
    destruct (Ascii.eqb c LF); [done|].
    destruct (Ascii.eqb c CR); [|done].
    change (String c' s' +:+ nl) with (String c' (s' +:+ nl)).
    cbv iota.
    destruct (Ascii.eqb c' LF) eqn:Ec'; [|done].
    destruct s' as [|c2 s2].
    + simpl in Hend'. congruence.
    + rewrite Hrec; [done|done|exact Hend'|subst n; simpl; lia].
Qed.

(** The parse of a text depends on the text through its lines, the text
    itself enters the error message only. *)
Lemma parse_lines_same_lines data data' lines acc :
  match parse_lines data lines acc with
  | Returned cmds => parse_lines data' lines acc = Returned cmds
  | Raised (TankError msg) =>
      ∃ line, line ∈ lines ∧ msg = missing_tokens_message line data ∧
        parse_lines data' lines acc
        = Raised (TankError (missing_tokens_message line data'))
  | Raised _ => False
  end.
Proof.
  revert acc. induction lines as [|l ls IH]; intros acc; [done|].
  simpl. destruct (length (split "$" l) <? 5) eqn:E.
  - exists l. split; [set_solver|done].
  - apply Nat.ltb_ge in E.
    destruct (split "$" l) as [|t0 [|t1 [|t2 [|t3 [|t4 ts]]]]];
      simpl in *; try lia.
    specialize (IH (acc ++ [mkCommand t0 t1 t4])).
    destruct (parse_lines data ls _) as [cmds|[msg| |]]; try done.
    destruct IH as (line & ? & ? & ?). exists line. set_solver.
Qed.

(** C1. A cache text whose lines all split on [$] into at least five
    tokens is parsed with success into one record per line, in the order
    of the lines, and the record of a line has its tokens 0, 1 and 4 as
    [name], [title] and [icon]. *)
Theorem parse_well_formed (commands_data : string) :
  Forall well_formed_line (splitlines commands_data) →
  ∃ commands,
    _parse_cached_commands commands_data = Returned commands ∧
    length commands = length (splitlines commands_data) ∧
    Forall2 record_of_line (splitlines commands_data) commands ∧
    ∀ (i : nat) line, splitlines commands_data !! i = Some line →
      ∃ c, commands !! i = Some c ∧ record_of_line line c.
Proof.
  intros H. unfold _parse_cached_commands.
  destruct (parse_lines_well_formed commands_data _ [] H) as (cmds & -> & HF).
  exists cmds. split; [done|]. split; [by erewrite <- Forall2_length|].
  split; [done|]. intros i line Hi.
  destruct (Forall2_lookup_l _ _ _ _ _ HF Hi) as (c & ? & ?). eauto.
Qed.

Lemma parse_well_formed_witness :
  ∃ commands,
    _parse_cached_commands Scenario.shot_cache = Returned commands ∧
    length commands = 2.
Proof.
  destruct (parse_well_formed Scenario.shot_cache) as (cmds & ? & ? & _).
  - vm_compute. repeat constructor.
  - exists cmds. split; [assumption|]. assumption.
Defined.

(** C2. A cache text with a line that splits on [$] into fewer than five
    tokens is not parsed: [TankError] is raised, its message quotes the
    first such line and ends with the whole text, and no list of records,
    partial or not, is returned. *)
Theorem parse_malformed (commands_data : string) :
  Exists (λ line, length (split "$" line) < 5) (splitlines commands_data) →
  ∃ good line rest,
    splitlines commands_data = good ++ line :: rest ∧
    Forall well_formed_line good ∧
    length (split "$" line) < 5 ∧
    _parse_cached_commands commands_data
    = Raised (TankError (missing_tokens_message line commands_data)) ∧
    (∃ before between,
       missing_tokens_message line commands_data
       = before +:+ line +:+ between +:+ commands_data) ∧
    ∀ commands, _parse_cached_commands commands_data ≠ Returned commands.
Proof.
  intros H.
  assert (H' : Exists (λ line, ¬ well_formed_line line)
                 (splitlines commands_data)).
  { eapply Exists_impl; [exact H|]. unfold well_formed_line. simpl. lia. }
  apply first_malformed in H' as (good & line & rest & E & Hg & Hl).
  exists good, line, rest. split; [done|]. split; [done|].
  split; [unfold well_formed_line in Hl; lia|].
  unfold _parse_cached_commands. rewrite E.
  rewrite parse_lines_malformed by done. split; [done|]. split.
  - unfold missing_tokens_message.
    exists ("The cache is missing tokens on the line " +:+ dquote),
      (dquote +:+ "." +:+ nl +:+ "Full cache:" +:+ nl).
    by rewrite !string_append_assoc.
  - intros ? [=].
Qed.

Lemma parse_malformed_witness :
  _parse_cached_commands "publish$Publish File$icon.png"
  = Raised (TankError (missing_tokens_message "publish$Publish File$icon.png"
                         "publish$Publish File$icon.png")).
Proof.
  destruct (parse_malformed "publish$Publish File$icon.png")
    as (good & line & rest & E & _ & _ & Hr & _ & _).
  - vm_compute. constructor. lia.
  - destruct good as [|g [|g' good]]; vm_compute in E; try discriminate E.
    injection E as <- _. exact Hr.
Defined.

(** C10. The empty text is parsed into the empty list; and a trailing
    line feed added to a text that is not empty and has none leaves the
    lines as they are: the parse returns the same list, or fails on the
    same line. *)
Theorem parse_trailing_newline :
  _parse_cached_commands "" = Returned [] ∧
  ∀ s, s ≠ "" → ends_with LF s = false →
    splitlines (s +:+ nl) = splitlines s ∧
    match _parse_cached_commands s with
    | Returned commands =>
        _parse_cached_commands (s +:+ nl) = Returned commands
    | Raised (TankError msg) =>
        ∃ line, line ∈ splitlines s ∧
          msg = missing_tokens_message line s ∧
          _parse_cached_commands (s +:+ nl)
          = Raised (TankError (missing_tokens_message line (s +:+ nl)))
    | Raised _ => False
    end.
Proof.
  split; [done|]. intros s Hne Hend.
  pose proof (splitlines_app_nl s Hne Hend) as E. split; [done|].
  unfold _parse_cached_commands. rewrite E.
  apply parse_lines_same_lines.
Qed.

Lemma parse_trailing_newline_witness :
  _parse_cached_commands ("a$b$c$d$e" +:+ nl)
  = Returned [mkCommand "a" "b" "e"].
Proof.
  exact (proj2 (proj2 parse_trailing_newline "a$b$c$d$e"
                  ltac:(discriminate) eq_refl)).
Defined.

End ParseFacts.

(** ** The names of the cache and of the environment *)

Section NameFacts.

Lemma lower_app (a b : string) : lower (a +:+ b) = lower a +:+ lower b.
Proof. induction a as [|c a IH]; simpl; [done|by rewrite IH]. Qed.

Lemma lower_idemp (s : string) : lower (lower s) = lower s.
Proof.
  induction s as [|c s IH]; simpl; [done|]. rewrite IH. f_equal.
  unfold lower_char.
  destruct c as [[] [] [] [] [] [] [] []]; reflexivity.
Qed.

(** C8. The name of the cache is [shotgun_<P>_<t>_detailed.txt] in lower
    case, with [<P>] the token [mac] on [darwin], [windows] on [win32],
    [linux] on every platform whose name starts with [linux], and the
    name of the platform on the others; the name of the environment is
    [shotgun_<t>.yml] in lower case. *)
Theorem cache_and_env_names (platform entity_type : string) :
  let cache_name P :=
    lower ("shotgun_" +:+ P +:+ "_" +:+ entity_type +:+ "_detailed.txt") in
  (platform = "darwin" →
     _get_cache_name platform entity_type = cache_name "mac") ∧
  (platform = "win32" →
     _get_cache_name platform entity_type = cache_name "windows") ∧
  (startswith platform "linux" = true →
     _get_cache_name platform entity_type = cache_name "linux") ∧
  (platform ≠ "darwin" → platform ≠ "win32" →
   startswith platform "linux" = false →
     _get_cache_name platform entity_type = cache_name platform) ∧
  _get_env_name entity_type = lower ("shotgun_" +:+ entity_type +:+ ".yml") ∧
  (∀ P, cache_name P
        = "shotgun_" +:+ lower P +:+ "_" +:+ lower entity_type
            +:+ "_detailed.txt") ∧
  lower (_get_cache_name platform entity_type)
  = _get_cache_name platform entity_type ∧
  lower (_get_env_name entity_type) = _get_env_name entity_type.
Proof.
  intros cache_name. unfold cache_name, _get_cache_name, _get_env_name.
  split; [by intros ->|]. split; [by intros ->|]. split.
  { intros H.
    destruct (String.eqb_spec platform "darwin") as [->|_]; [done|].
    destruct (String.eqb_spec platform "win32") as [->|_]; [done|].
    by rewrite H. }
  split.
  { intros H1 H2 H3.
    destruct (String.eqb_spec platform "darwin") as [|_]; [done|].
    destruct (String.eqb_spec platform "win32") as [|_]; [done|].
    by rewrite H3. }
  split; [by rewrite !lower_app|]. split; [intros P; by rewrite !lower_app|].
  split; [apply lower_idemp|].
  by rewrite !lower_app, lower_idemp.
Qed.

Lemma cache_and_env_names_witness :
  _get_cache_name "darwin" "Shot" = "shotgun_mac_shot_detailed.txt" ∧
  _get_cache_name "win32" "Shot" = "shotgun_windows_shot_detailed.txt" ∧
  _get_cache_name "linux2" "Shot" = "shotgun_linux_shot_detailed.txt" ∧
  _get_cache_name "sunos5" "Shot" = "shotgun_sunos5_shot_detailed.txt".
Proof.
  split; [|split; [|split]].
  - exact (proj1 (cache_and_env_names "darwin" "Shot") eq_refl).
  - exact (proj1 (proj2 (cache_and_env_names "win32" "Shot")) eq_refl).
  - exact (proj1 (proj2 (proj2 (cache_and_env_names "linux2" "Shot")))
             eq_refl).
  - exact (proj1 (proj2 (proj2 (proj2 (cache_and_env_names "sunos5" "Shot"))))
             ltac:(discriminate) ltac:(discriminate) eq_refl).
Defined.

End NameFacts.

(** ** Loading the cache *)

Section LoadFacts.

Context {World : Type}.
Variable toolkit :
  string → string → list string → World →
  (string + SubprocessCalledProcessError) * World.
Variable str_of_error : SubprocessCalledProcessError → string.
Variable platform : string.

Abbreviation load := (_load_cached_data toolkit str_of_error platform).
Abbreviation get_actions pc ty :=
  (toolkit pc "shotgun_get_actions"
     [_get_cache_name platform ty; _get_env_name ty]).
Abbreviation cache_actions_new pc ty id :=
  (toolkit pc "shotgun_cache_actions"
     [ty%string; _get_cache_name platform ty; str_of_int id]).
Abbreviation cache_actions_old pc ty :=
  (toolkit pc "shotgun_cache_actions"
     [ty%string; _get_cache_name platform ty]).

Ltac run_load :=
  unfold _load_cached_data, try_except, except_subprocess,
    execute_toolkit_command, mbind, M_bind, bind, mret, M_ret, ret, raise;
  cbn [world calls logged].

Lemma stale_in e :
  stale e ↔
  returncode e ∈ [_ERROR_CODE_CACHE_OUT_OF_DATE; _ERROR_CODE_CACHE_NOT_FOUND].
Proof.
  unfold stale, _ERROR_CODE_CACHE_OUT_OF_DATE, _ERROR_CODE_CACHE_NOT_FOUND.
  rewrite !elem_of_cons, elem_of_nil. tauto.
Qed.

(** C3. For a group of entities, a rebuild of the cache is asked for if
    and only if the first request for its content fails with exit status 1
    or 2. When the first request succeeds its output is returned and
    nothing else is called; when it fails with another status a
    [TankError] is raised and nothing else is called. *)
Theorem rebuild_iff_stale (pc entity_type : string) (entities : list entity)
    (st : State World) :
  entities ≠ [] →
  let first := (get_actions pc entity_type (world st)).1 in
  let '(r, st') := load pc entity_type entities st in
  ∃ later,
    calls st'
    = calls st ++ get_actions_call platform pc entity_type :: later ∧
    (Exists is_rebuild later ↔ ∃ e, first = inr e ∧ stale e) ∧
    (∀ out, first = inl out → later = [] ∧ r = Returned out) ∧
    (∀ e, first = inr e → ¬ stale e →
       later = [] ∧ r = Raised (TankError
         (get_failed_message str_of_error e))).
Proof.
  intros Hne. destruct entities as [|[t0 id] rest]; [done|]. clear Hne.
  run_load.
  destruct (get_actions pc entity_type (world st)) as [[out|e] w1]; simpl.
  - eexists []. split; [done|]. split.
    + split; [by intros ?%Exists_nil|by intros (? & ? & ?)].
    + split; [by intros ? [= ->]|done].
  - case_bool_decide as Hst; rewrite <- stale_in in Hst; simpl.
    + destruct (cache_actions_new pc entity_type id w1) as [[o2|e2] w2]; simpl.
      * destruct (get_actions pc entity_type w2) as [[o3|e3] w3]; simpl;
          (eexists (_ :: _); split; [rewrite <- !app_assoc; reflexivity|];
           split; [split; [eauto|intros _; by left]|];
           split; [done|]; intros ? [= <-]; done).
      * destruct (cache_actions_old pc entity_type w2) as [[o3|e3] w3]; simpl.
        -- destruct (get_actions pc entity_type w3) as [[o4|e4] w4]; simpl;
          (eexists (_ :: _); split; [rewrite <- !app_assoc; reflexivity|];
           split; [split; [eauto|intros _; by left]|];
           split; [done|]; intros ? [= <-]; done).
        -- (eexists (_ :: _); split; [rewrite <- !app_assoc; reflexivity|];
           split; [split; [eauto|intros _; by left]|];
           split; [done|]; intros ? [= <-]; done).
    + eexists []. split; [done|]. split.
      * split; [by intros ?%Exists_nil|]. intros (? & [= <-] & ?). done.
      * split; [done|]. by intros ? [= <-] _.
Qed.

(** C4. When the first request for the content of the cache fails with
    exit status 1 or 2, the rebuild is asked for under the new calling
    convention first, with the entity type, the name of the cache and the
    identifier of the first entity of the group written as a string. The
    old calling convention (entity type and name of the cache) is tried
    only when that call raised [SubprocessCalledProcessError], which is a
    command that ended with an exit status other than zero. When the call
    under the old convention fails too, [TankError] is raised with a
    message that ends with the output of that command; otherwise the
    content of the cache is requested again. *)
Theorem rebuild_new_then_old (pc entity_type first_type : string)
    (entity_id : Z) (rest : list entity) (st : State World)
    (e1 : SubprocessCalledProcessError) (w1 : World) :
  get_actions pc entity_type (world st) = (inr e1, w1) →
  stale e1 →
  let get := get_actions_call platform pc entity_type in
  let new := new_convention_call platform pc entity_type entity_id in
  let old := old_convention_call platform pc entity_type in
  let reread w :=
    match get_actions pc entity_type w with
    | (inl out, _) => Returned out
    | (inr e, _) => Raised (TankError (reload_failed_message str_of_error e))
    end in
  let '(r, st') := load pc entity_type ((first_type, entity_id) :: rest) st in
  match cache_actions_new pc entity_type entity_id w1 with
  | (inl _, w2) => calls st' = calls st ++ [get; new; get] ∧ r = reread w2
  | (inr _, w2) =>
      match cache_actions_old pc entity_type w2 with
      | (inl _, w3) =>
          calls st' = calls st ++ [get; new; old; get] ∧ r = reread w3
      | (inr e3, _) =>
          calls st' = calls st ++ [get; new; old] ∧
          r = Raised (TankError (update_failed_message str_of_error e3)) ∧
          ∃ text, update_failed_message str_of_error e3 = text +:+ output e3
      end
  end.
Proof.
  intros E1 Hst. apply stale_in in Hst. run_load. rewrite E1. simpl.
  rewrite bool_decide_eq_true_2 by done. simpl.
  destruct (cache_actions_new pc entity_type entity_id w1) as [[o2|e2] w2];
    simpl.
  - destruct (get_actions pc entity_type w2) as [[o3|e3] w3]; simpl;
      by rewrite <- !app_assoc.
  - destruct (cache_actions_old pc entity_type w2) as [[o3|e3] w3]; simpl.
    + destruct (get_actions pc entity_type w3) as [[o4|e4] w4]; simpl;
        by rewrite <- !app_assoc.
    + rewrite <- !app_assoc. split; [done|]. split; [done|].
      unfold update_failed_message, details.
      rewrite <- !string_append_assoc. by eexists.
Qed.

End LoadFacts.

Lemma rebuild_iff_stale_witness :
  let '(r, st') :=
    Scenario.load
      [Scenario.exit_with 2; Scenario.ok ""; Scenario.ok Scenario.task_cache]
      "Task" [("Task", 5%Z)] in
  ∃ later,
    calls st' = [] ++ get_actions_call "linux2" "/pc" "Task" :: later ∧
    (Exists is_rebuild later ↔
       ∃ e, Scenario.exit_with 2 = inr e ∧ stale e) ∧
    (∀ out, Scenario.exit_with 2 = inl out →
       later = [] ∧ r = Returned out) ∧
    (∀ e, Scenario.exit_with 2 = inr e → ¬ stale e →
       later = [] ∧ r = Raised (TankError
         (get_failed_message Scenario.str_of_error e))).
Proof.
  apply (rebuild_iff_stale Scenario.scripted Scenario.str_of_error "linux2"
           "/pc" "Task" [("Task", 5%Z)]
           (Scenario.start [Scenario.exit_with 2; Scenario.ok "";
                            Scenario.ok Scenario.task_cache])).
  discriminate.
Defined.

(** ** Grouping *)

Section GroupFacts.

Lemma groupby_concat (entities : list entity) :
  concat (groupby entities).*2 = entities.
Proof.
  induction entities as [|e rest IH]; [done|]. simpl.
  destruct (groupby rest) as [|[k g] gs]; simpl in *.
  - by rewrite <- IH.
  - destruct (String.eqb e.1 k); simpl; by rewrite <- IH.
Qed.

Lemma groupby_groups (entities : list entity) :
  Forall (λ kg, kg.2 ≠ [] ∧ Forall (λ e : entity, e.1 = kg.1) kg.2)
    (groupby entities).
Proof.
  induction entities as [|e rest IH]; [constructor|]. simpl.
  destruct (groupby rest) as [|[k g] gs]; simpl in *.
  - repeat constructor; done.
  - apply Forall_cons in IH as [[Hg Hk] IH]. simpl in *.
    destruct (String.eqb_spec e.1 k) as [E|E].
    + constructor; [|done]. simpl. split; [done|]. by constructor.
    + repeat constructor; try done.
Qed.

Lemma groupby_cons e rest :
  groupby (e :: rest) =
    match groupby rest with
    | (key, group) :: groups =>
        if String.eqb e.1 key then (key, e :: group) :: groups
        else (e.1, [e]) :: (key, group) :: groups
    | [] => [(e.1, [e])]
    end.
Proof. reflexivity. Qed.

Lemma groupby_head e rest :
  ∃ g gs, groupby (e :: rest) = (e.1, e :: g) :: gs.
Proof.
  simpl. destruct (groupby rest) as [|[k g] gs]; [by eauto|].
  destruct (String.eqb_spec e.1 k) as [<-|E]; eauto.
Qed.

Lemma groupby_adjacent (entities : list entity) (i : nat) k1 k2 :
  (groupby entities).*1 !! i = Some k1 →
  (groupby entities).*1 !! S i = Some k2 →
  k1 ≠ k2.
Proof.
  revert i. induction entities as [|e rest IH]; intros i; [done|].
  destruct rest as [|e' rest'].
  { simpl. by destruct i. }
  rewrite groupby_cons.
  destruct (groupby_head e' rest') as (g & gs & E). rewrite E in *.
  destruct (String.eqb_spec e.1 e'.1) as [Heq|Hne].
  - intros H1 H2. apply (IH i); [|done].
    destruct i; simpl in *; [injection H1 as <-|]; done.
  - destruct i as [|i]; simpl.
    + by intros [= <-] [= <-].
    + apply IH.
Qed.

Lemma elem_of_groupby (entities : list entity) e :
  e ∈ entities ↔ ∃ kg, kg ∈ groupby entities ∧ e ∈ kg.2.
Proof.
  rewrite <- (groupby_concat entities) at 1.
  rewrite list_elem_of_In, in_concat. split.
  - intros (g & Hg & He). apply list_elem_of_In, list_elem_of_fmap in Hg
      as (kg & -> & Hkg). exists kg. split; [done|by apply list_elem_of_In].
  - intros (kg & Hkg & He). exists kg.2.
    rewrite <- !list_elem_of_In. split; [|done].
    apply list_elem_of_fmap. eauto.
Qed.

Lemma groupby_key_type (entities : list entity) kg e :
  kg ∈ groupby entities → e ∈ kg.2 → e.1 = kg.1.
Proof.
  intros Hkg He. pose proof (groupby_groups entities) as H.
  rewrite Forall_forall in H. destruct (H _ Hkg) as [_ Hk].
  rewrite Forall_forall in Hk. by apply Hk.
Qed.

Lemma groupby_keys_types (entities : list entity) k :
  k ∈ (groupby entities).*1 → k ∈ entities.*1.
Proof.
  intros (kg & -> & Hkg)%list_elem_of_fmap.
  pose proof (groupby_groups entities) as H.
  rewrite Forall_forall in H. destruct (H _ Hkg) as [Hne Hk].
  destruct kg as [k [|e g]]; [done|]. simpl in *.
  apply Forall_cons in Hk as [<- _].
  apply list_elem_of_fmap. exists e. split; [done|].
  apply elem_of_groupby. exists (e.1, e :: g). split; [done|]. simpl.
  by left.
Qed.

Lemma contiguous_groupby_NoDup (entities : list entity) :
  contiguous_types entities = true → NoDup (groupby entities).*1.
Proof.
  induction entities as [|e rest IH]; [constructor|].
  cbn [contiguous_types]. intros [Hrun Hrest]%andb_true_iff.
  specialize (IH Hrest). destruct rest as [|e' rest'].
  { simpl. repeat constructor. set_solver. }
  pose proof (groupby_keys_types (e' :: rest')) as Hkeys.
  destruct (groupby_head e' rest') as (g & gs & E).
  rewrite groupby_cons. rewrite E in *.
  destruct (String.eqb_spec e.1 e'.1) as [Heq|Hne]; [exact IH|].
  rewrite orb_false_l in Hrun.
  change ((e.1, [e]) :: (e'.1, e' :: g) :: gs).*1
    with (e.1 :: ((e'.1, e' :: g) :: gs).*1).
  constructor; [|done]. intros Hin%Hkeys.
  apply negb_true_iff, not_true_iff_false in Hrun. apply Hrun.
  apply existsb_exists.
  apply list_elem_of_fmap in Hin as (x & Hx & Hin). exists x.
  rewrite <- list_elem_of_In. split; [done|]. by apply String.eqb_eq.
Qed.

Lemma NoDup_fst_unique {A B} (l : list (A * B)) (k : A) (a b : B) :
  NoDup l.*1 → (k, a) ∈ l → (k, b) ∈ l → a = b.
Proof.
  induction l as [|[k' c] l IH]; intros Hnd Ha Hb;
    [by apply elem_of_nil in Ha|].
  rewrite fmap_cons in Hnd. apply NoDup_cons in Hnd as [Hk Hnd].
  assert (∀ x, (k, x) ∈ l → k ∈ l.*1) as Hfst.
  { intros x Hx. apply list_elem_of_fmap. by exists (k, x). }
  apply elem_of_cons in Ha as [Ha|Ha];
    apply elem_of_cons in Hb as [Hb|Hb]; simplify_eq.
  - done.
  - destruct Hk. eauto.
  - destruct Hk. eauto.
  - by apply IH.
Qed.

End GroupFacts.

(** ** The loop over the groups *)

Section RunFacts.

Context {World : Type}.
Variable toolkit :
  string → string → list string → World →
  (string + SubprocessCalledProcessError) * World.
Variable str_of_error : SubprocessCalledProcessError → string.
Variable platform : string.

Abbreviation attempts' := (attempts toolkit str_of_error platform).
Abbreviation run' := (run_noninteractive toolkit str_of_error platform).

(** For a group that is not empty, [_load_cached_data] returns or raises
    [TankError], and logs nothing. *)
Lemma load_outcome (pc entity_type : string) (entities : list entity)
    (st : State World) :
  entities ≠ [] →
  let '(r, st') :=
    _load_cached_data toolkit str_of_error platform pc entity_type
      entities st in
  logged st' = logged st ∧
  ((∃ out, r = Returned out) ∨ (∃ msg, r = Raised (TankError msg))).
Proof.
  intros Hne. destruct entities as [|[t0 id] rest]; [done|]. clear Hne.
  unfold _load_cached_data, try_except, except_subprocess,
    execute_toolkit_command, mbind, M_bind, bind, mret, M_ret, ret, raise.
  cbn [world calls logged].
  repeat (simpl;
          match goal with
          | |- context [toolkit ?a ?b ?c ?d] =>
              destruct (toolkit a b c d) as [[?|?] ?]
          | |- context [bool_decide ?P] => destruct (bool_decide P)
          end); simpl; eauto.
Qed.

Lemma parse_outcome (data : string) :
  (∃ cmds, _parse_cached_commands data = Returned cmds) ∨
  (∃ msg, _parse_cached_commands data = Raised (TankError msg)).
Proof.
  destruct (parse_lines_cases data (splitlines data) [])
    as [?|(line & _ & ?)]; eauto.
Qed.

Lemma fetch_outcome (pc entity_type : string) (entities : list entity)
    (st : State World) :
  entities ≠ [] →
  let '(r, st') :=
    fetch toolkit str_of_error platform pc entity_type entities st in
  logged st' = logged st ∧
  ((∃ cmds, r = Returned cmds) ∨ (∃ msg, r = Raised (TankError msg))).
Proof.
  intros Hne. unfold fetch, mbind, M_bind, bind, lift.
  pose proof (load_outcome pc entity_type entities st Hne) as H.
  destruct (_load_cached_data _ _ _ _ _ _ _) as [r st1].
  destruct H as [Hlog [[out ->]|[msg ->]]]; [|eauto].
  split; [done|]. apply parse_outcome.
Qed.

Lemma handle_group_fetch (pc : string) (m : gmap entity (list Command))
    (entity_type : string) (entities : list entity) (st : State World) :
  handle_group toolkit str_of_error platform pc m (entity_type, entities) st
  = match fetch toolkit str_of_error platform pc entity_type entities st with
    | (Returned cmds, st1) => (Returned (assign cmds entities m), st1)
    | (Raised (TankError msg), st1) =>
        (Returned m,
         (log_error (fetch_failed_message pc entity_type msg) st1).2)
    | (Raised e, st1) => (Raised e, st1)
    end.
Proof.
  unfold handle_group, fetch, try_except, mbind, M_bind, bind, lift, mret,
    M_ret, ret.
  destruct (_load_cached_data _ _ _ _ _ _ _) as [[out|[]] st1]; try done.
  destruct (_parse_cached_commands out) as [cmds|[]]; done.
Qed.

Lemma assign_lookup (cmds : list Command) (entities : list entity)
    (m : gmap entity (list Command)) (e : entity) :
  assign cmds entities m !! e
  = if bool_decide (e ∈ entities) then Some cmds else m !! e.
Proof.
  unfold assign. revert m. induction entities as [|x xs IH]; intros m.
  - case_bool_decide as H; [by apply elem_of_nil in H|done].
  - cbn [foldl]. rewrite IH.
    destruct (decide (e = x)) as [->|Hne];
      [rewrite lookup_insert_eq|rewrite lookup_insert_ne by done];
      repeat case_bool_decide; try done;
      rewrite elem_of_cons in *; tauto.
Qed.

(** The loop never raises: it handles every group, logs one message for
    each that failed, and leaves for an entity the commands of the last
    group with it that succeeded. *)
Lemma for_groups_spec (pc : string) (groups : list (string * list entity))
    (m : gmap entity (list Command)) (st : State World) :
  Forall (λ kg, kg.2 ≠ []) groups →
  ∃ m' st',
    for_groups toolkit str_of_error platform pc groups m st
    = (Returned m', st') ∧
    Forall (λ a, succeeded a ∨ failed a) (attempts' pc groups st) ∧
    (attempts' pc groups st).*1 = groups ∧
    logged st' = logged st ++ failure_messages pc (attempts' pc groups st) ∧
    ∀ e, m' !! e = last_success_from e (m !! e) (attempts' pc groups st).
Proof.
  intros H. revert m st.
  induction H as [|[t ents] groups Hne _ IH]; intros m st.
  - exists m, st. simpl. rewrite app_nil_r. repeat split; done || constructor.
  - cbn [for_groups attempts]. unfold mbind, M_bind, bind.
    rewrite handle_group_fetch.
    pose proof (fetch_outcome pc t ents st Hne) as Hf.
    destruct (fetch _ _ _ _ _ _ _) as [r st1].
    destruct Hf as [Hlog [[cmds ->]|[msg ->]]].
    + destruct (IH (assign cmds ents m) st1)
        as (m' & st' & -> & Ho & Hg & Hl & Hm).
      exists m', st'. split; [done|]. split.
      { constructor; [left; by eexists|done]. }
      split; [by rewrite fmap_cons, Hg|]. split.
      { rewrite Hl, Hlog. done. }
      intros e. rewrite Hm, assign_lookup. done.
    + destruct (IH m (log_error (fetch_failed_message pc t msg) st1).2)
        as (m' & st' & -> & Ho & Hg & Hl & Hm).
      exists m', st'. split; [done|]. split.
      { constructor; [right; by eexists|done]. }
      split; [by rewrite fmap_cons, Hg|]. split.
      { rewrite Hl. simpl. rewrite Hlog, <- app_assoc. done. }
      intros e. rewrite Hm. done.
Qed.

Lemma groupby_nonempty (entities : list entity) :
  Forall (λ kg : string * list entity, kg.2 ≠ []) (groupby entities).
Proof.
  eapply Forall_impl; [apply groupby_groups|]. by intros ? [? _].
Qed.

Lemma last_success_from_Some (e : entity) (cmds : list Command)
    (att : list attempt) :
  is_Some (last_success_from e (Some cmds) att).
Proof.
  revert cmds. induction att as [|[kg [c|ex]] att IH]; intros cmds;
    [by eexists| |]; unfold last_success_from in *; simpl.
  - case_bool_decide; apply IH.
  - apply IH.
Qed.

Lemma last_success_from_present (e : entity)
    (found : option (list Command)) (att : list attempt) (a : attempt) :
  a ∈ att → succeeded a → e ∈ a.1.2 →
  is_Some (last_success_from e found att).
Proof.
  revert found. induction att as [|b att IH]; intros found Hin Hs He;
    [by apply elem_of_nil in Hin|].
  apply elem_of_cons in Hin as [<-|Hin].
  - destruct Hs as [cmds Hs]. unfold last_success_from. simpl. rewrite Hs.
    rewrite bool_decide_eq_true_2 by done. apply last_success_from_Some.
  - unfold last_success_from. simpl. by apply IH.
Qed.

Lemma last_success_from_absent (e : entity)
    (found : option (list Command)) (att : list attempt) :
  (∀ a, a ∈ att → succeeded a → e ∉ a.1.2) →
  last_success_from e found att = found.
Proof.
  revert found. induction att as [|[kg [c|ex]] att IH]; intros found H;
    [done| |]; unfold last_success_from in *; simpl.
  - rewrite bool_decide_eq_false_2.
    + apply IH. intros a Ha. apply H. by right.
    + apply (H (kg, Returned c)); [by left|by eexists].
  - apply IH. intros a Ha. apply H. by right.
Qed.

(** What [found] was does not matter once a group with [e] succeeded, and
    two entities that are in the same groups get the same commands. *)
Lemma last_success_from_same (e1 e2 : entity)
    (found1 found2 : option (list Command)) (att : list attempt) :
  (∀ a, a ∈ att → (e1 ∈ a.1.2 ↔ e2 ∈ a.1.2)) →
  found1 = found2 →
  last_success_from e1 found1 att = last_success_from e2 found2 att.
Proof.
  revert found1 found2.
  induction att as [|[kg [c|ex]] att IH]; intros found1 found2 H ->;
    [done| |]; unfold last_success_from in *; simpl.
  - apply IH; [intros a Ha; apply H; by right|].
    pose proof (H (kg, Returned c) ltac:(by left)) as Hiff. simpl in Hiff.
    destruct (decide (e1 ∈ kg.2)) as [H1|H1].
    + rewrite !bool_decide_eq_true_2; tauto.
    + rewrite !bool_decide_eq_false_2; tauto.
  - apply IH; [intros a Ha; apply H; by right|done].
Qed.

Lemma last_success_from_inv (e : entity) (found : option (list Command))
    (att : list attempt)
    (c : list Command) :
  last_success_from e found att = Some c →
  found = Some c ∨ ∃ a, a ∈ att ∧ a.2 = Returned c ∧ e ∈ a.1.2.
Proof.
  revert found. induction att as [|[kg [c'|ex]] att IH]; intros found;
    [by left| |]; unfold last_success_from in *; simpl; intros H.
  - apply IH in H as [H|(a & ? & ? & ?)].
    + case_bool_decide; [|by left]. injection H as <-. right.
      exists (kg, Returned c'). split; [by left|done].
    + right. exists a. split; [by right|done].
  - apply IH in H as [H|(a & ? & ? & ?)]; [by left|].
    right. exists a. split; [by right|done].
Qed.

Lemma run_spec (pc : string) (entities : list entity) (st : State World) :
  ∃ m st',
    run' pc entities st = (Returned m, st') ∧
    Forall (λ a, succeeded a ∨ failed a)
      (attempts' pc (groupby entities) st) ∧
    (attempts' pc (groupby entities) st).*1 = groupby entities ∧
    logged st'
    = logged st ++ failure_messages pc (attempts' pc (groupby entities) st) ∧
    ∀ e, m !! e = last_success e (attempts' pc (groupby entities) st).
Proof.
  destruct (for_groups_spec pc (groupby entities) ∅ st
              (groupby_nonempty entities))
    as (m & st' & Hr & Ho & Hg & Hl & Hm).
  exists m, st'. do 4 (split; [done|]).
  intros e. by rewrite Hm, lookup_empty.
Qed.

(** In a list where the entities of a type are next to each other, two
    entities of one type are in the same groups. *)
Lemma contiguous_same_groups (entities : list entity) (e1 e2 : entity)
    (kg : string * list entity) :
  contiguous_types entities = true →
  e1 ∈ entities → e2 ∈ entities → e1.1 = e2.1 →
  kg ∈ groupby entities → e1 ∈ kg.2 → e2 ∈ kg.2.
Proof.
  intros Hc H1 H2 Ht Hkg He1.
  apply elem_of_groupby in H2 as (kg2 & Hkg2 & He2).
  pose proof (groupby_key_type _ _ _ Hkg He1) as K1.
  pose proof (groupby_key_type _ _ _ Hkg2 He2) as K2.
  destruct kg as [k g], kg2 as [k2 g2]. simpl in *.
  assert (k = k2) as <- by congruence.
  pose proof (contiguous_groupby_NoDup _ Hc) as Hnd.
  by rewrite (NoDup_fst_unique _ _ _ _ Hnd Hkg Hkg2).
Qed.

Lemma contiguous_same_lookup (pc : string) (entities : list entity)
    (st : State World) (e1 e2 : entity) :
  contiguous_types entities = true →
  e1 ∈ entities → e2 ∈ entities → e1.1 = e2.1 →
  last_success e1 (attempts' pc (groupby entities) st)
  = last_success e2 (attempts' pc (groupby entities) st).
Proof.
  intros Hc H1 H2 Ht.
  destruct (run_spec pc entities st) as (_ & _ & _ & _ & Hg & _).
  apply last_success_from_same; [|done].
  intros a Ha.
  assert (a.1 ∈ groupby entities) as Hkg.
  { rewrite <- Hg. apply list_elem_of_fmap. eauto. }
  split; intros He.
  - by apply (contiguous_same_groups entities e1 e2 a.1).
  - by apply (contiguous_same_groups entities e2 e1 a.1).
Qed.

(** C5. [run_noninteractive] never raises: a group that fails
    with [TankError] gets a message logged, with the path of the
    configuration, the entity type and the text of the error, and the
    groups after it are handled as if nothing had happened. In the
    result, an entity has the commands of the last group with it that
    succeeded: it is absent when every group with it failed and present
    when one of them succeeded. *)
Theorem failed_group_is_logged_and_skipped (pc : string)
    (entities : list entity) (st : State World) :
  ∃ m st',
    run' pc entities st = (Returned m, st') ∧
    (attempts' pc (groupby entities) st).*1 = groupby entities ∧
    Forall (λ a, succeeded a ∨ failed a)
      (attempts' pc (groupby entities) st) ∧
    logged st'
    = logged st ++ failure_messages pc (attempts' pc (groupby entities) st) ∧
    (∀ e, m !! e = last_success e (attempts' pc (groupby entities) st)) ∧
    (∀ e, (∀ a, a ∈ attempts' pc (groupby entities) st →
                e ∈ a.1.2 → failed a) →
          m !! e = None) ∧
    (∀ e a, a ∈ attempts' pc (groupby entities) st →
            succeeded a → e ∈ a.1.2 → is_Some (m !! e)).
Proof.
  destruct (run_spec pc entities st) as (m & st' & Hr & Ho & Hg & Hl & Hm).
  exists m, st'. do 5 (split; [done|]). split.
  - intros e H. rewrite Hm. apply last_success_from_absent.
    intros a Ha [c Hs] He. destruct (H a Ha He) as [msg Hf]. congruence.
  - intros e a Ha Hs He. rewrite Hm.
    by eapply last_success_from_present.
Qed.

(** C7. When the entities of a type are next to each other in
    the list, two entities of one type have the same entry in the result:
    the same list of commands, or none for both. *)
Theorem same_type_same_commands (pc : string) (entities : list entity)
    (st : State World) :
  contiguous_types entities = true →
  ∃ m st',
    run' pc entities st = (Returned m, st') ∧
    ∀ e1 e2, e1 ∈ entities → e2 ∈ entities → e1.1 = e2.1 →
             m !! e1 = m !! e2.
Proof.
  intros Hc.
  destruct (run_spec pc entities st) as (m & st' & Hr & _ & _ & _ & Hm).
  exists m, st'. split; [done|]. intros e1 e2 H1 H2 Ht.
  rewrite !Hm. by apply contiguous_same_lookup.
Qed.

(** C6. [groupby] cuts the list into its maximal runs of
    entities of equal type, in order. When the entities of a type are
    next to each other and no group fails, every entity of the list is
    in the result, there is one list of commands per entity type, given
    to every entity of the type, and so the result holds at most as many
    different lists of commands as the list has entity types. *)
Theorem one_command_list_per_type (pc : string) (entities : list entity)
    (st : State World) :
  (concat (groupby entities).*2 = entities ∧
   Forall (λ kg, kg.2 ≠ [] ∧ Forall (λ e : entity, e.1 = kg.1) kg.2)
     (groupby entities) ∧
   ∀ (i : nat) k1 k2,
     (groupby entities).*1 !! i = Some k1 →
     (groupby entities).*1 !! S i = Some k2 → k1 ≠ k2) ∧
  (contiguous_types entities = true →
   Forall succeeded (attempts' pc (groupby entities) st) →
   ∃ m st',
     run' pc entities st = (Returned m, st') ∧
     (∀ e, is_Some (m !! e) ↔ e ∈ entities) ∧
     (∃ per_type : string → list Command,
        ∀ e, e ∈ entities → m !! e = Some (per_type e.1)) ∧
     count_command_lists m ≤ count_types entities).
Proof.
  split.
  { split; [apply groupby_concat|]. split; [apply groupby_groups|].
    apply groupby_adjacent. }
  intros Hc Hall.
  destruct (run_spec pc entities st) as (m & st' & Hr & _ & Hg & _ & Hm).
  exists m, st'. split; [done|].
  assert (Hdom : ∀ e, is_Some (m !! e) ↔ e ∈ entities).
  { intros e. rewrite Hm. split.
    - intros [c Hc']. apply last_success_from_inv in Hc'
        as [?|(a & Ha & _ & He)]; [done|].
      apply elem_of_groupby. exists a.1. split; [|done].
      rewrite <- Hg. apply list_elem_of_fmap. eauto.
    - intros (kg & Hkg & He)%elem_of_groupby.
      rewrite <- Hg in Hkg. apply list_elem_of_fmap in Hkg as (a & -> & Ha).
      eapply last_success_from_present; [done| |done].
      rewrite Forall_forall in Hall. by apply Hall. }
  split; [done|].
  set (per_type := λ t : string,
         default []
           (e0 ← List.find (λ e : entity, String.eqb e.1 t) entities;
            m !! e0)).
  assert (Hper : ∀ e, e ∈ entities → m !! e = Some (per_type e.1)).
  { intros e He. unfold per_type.
    destruct (List.find _ entities) as [e0|] eqn:Hfind.
    - apply find_some in Hfind as [Hin Heq].
      apply list_elem_of_In in Hin. apply String.eqb_eq in Heq. simpl.
      assert (m !! e0 = m !! e) as ->.
      { rewrite !Hm. by apply contiguous_same_lookup. }
      destruct (proj2 (Hdom e) He) as [c ->]. done.
    - apply list_elem_of_In in He.
      pose proof (find_none _ _ Hfind e He) as Hf. simpl in Hf.
      by rewrite String.eqb_refl in Hf. }
  split; [by exists per_type|].
  unfold count_command_lists, count_types.
  rewrite <- (length_fmap per_type (remove_dups entities.*1)).
  apply submseteq_length, NoDup_submseteq; [apply NoDup_remove_dups|].
  intros v Hv. apply elem_of_remove_dups, list_elem_of_fmap in Hv
    as ([e v'] & -> & Hev). simpl.
  apply elem_of_map_to_list in Hev.
  assert (e ∈ entities) as He by (apply Hdom; eauto).
  rewrite (Hper e He) in Hev. injection Hev as <-.
  apply list_elem_of_fmap. exists e.1. split; [done|].
  apply elem_of_remove_dups, list_elem_of_fmap. eauto.
Qed.

End RunFacts.

(** ** Runs against the scripted toolkit *)

Section Examples.
Import Scenario.

Lemma rebuild_new_then_old_witness :
  let get := get_actions_call "linux2" "/pc" "Task" in
  let new := new_convention_call "linux2" "/pc" "Task" 5 in
  let old := old_convention_call "linux2" "/pc" "Task" in
  let e3 := mkSubprocessError 7 [] "" in
  let '(r, st') :=
    load [exit_with 2; exit_with 1; exit_with 7] "Task" [("Task", 5%Z)] in
  calls st' = [] ++ [get; new; old] ∧
  r = Raised (TankError (update_failed_message str_of_error e3)) ∧
  ∃ text, update_failed_message str_of_error e3 = text +:+ output e3.
Proof.
  exact (rebuild_new_then_old scripted str_of_error "linux2" "/pc" "Task"
           "Task" 5 []
           (start [exit_with 2; exit_with 1; exit_with 7])
           (mkSubprocessError 2 [] "") [exit_with 1; exit_with 7]
           eq_refl (or_intror eq_refl)).
Defined.

(** The entity [("Shot", 1)] is in the third group, which fails, and has
    the commands of the first group. *)
Lemma entity_of_failed_group_present :
  let entities := [("Shot", 1%Z); ("Task", 2%Z); ("Shot", 1%Z)] in
  let script := [ok shot_cache; ok task_cache; exit_with 3] in
  ∃ m st',
    run script entities = (Returned m, st') ∧
    ¬ ∀ e a,
        a ∈ attempts scripted str_of_error "linux2" "/pc" (groupby entities)
              (start script) →
        failed a → e ∈ a.1.2 → m !! e = None.
Proof.
  intros entities script.
  destruct (run_spec scripted str_of_error "linux2" "/pc" entities
              (start script)) as (m & st' & Hr & _ & _ & _ & Hm).
  exists m, st'. split; [exact Hr|]. intros H.
  destruct (attempts scripted str_of_error "linux2" "/pc" (groupby entities)
              (start script) !! 2) as [a|] eqn:Ha;
    [|vm_compute in Ha; discriminate Ha].
  pose proof Ha as Ha'. vm_compute in Ha'. injection Ha' as Ha'.
  specialize (H ("Shot", 1%Z) a (list_elem_of_lookup_2 _ _ _ Ha)).
  rewrite Hm in H. subst a.
  assert (Hnone : last_success ("Shot", 1%Z)
            (attempts scripted str_of_error "linux2" "/pc" (groupby entities)
               (start script)) = None).
  { apply H; [by eexists|by left]. }
  vm_compute in Hnone. discriminate Hnone.
Qed.

Lemma failed_group_is_logged_and_skipped_witness :
  let entities := [("Shot", 1%Z); ("Task", 2%Z)] in
  let script := [exit_with 3; ok task_cache] in
  let att := attempts scripted str_of_error "linux2" "/pc" (groupby entities)
               (start script) in
  ∃ m st',
    run script entities = (Returned m, st') ∧
    att.*1 = groupby entities ∧
    Forall (λ a, succeeded a ∨ failed a) att ∧
    logged st' = [] ++ failure_messages "/pc" att ∧
    (∀ e, m !! e = last_success e att) ∧
    (∀ e, (∀ a, a ∈ att → e ∈ a.1.2 → failed a) → m !! e = None) ∧
    (∀ e a, a ∈ att → succeeded a → e ∈ a.1.2 → is_Some (m !! e)).
Proof.
  exact (failed_group_is_logged_and_skipped scripted str_of_error "linux2"
           "/pc" [("Shot", 1%Z); ("Task", 2%Z)]
           (start [exit_with 3; ok task_cache])).
Defined.

Lemma same_type_same_commands_witness :
  let entities := [("Shot", 100%Z); ("Shot", 101%Z); ("Task", 5%Z)] in
  let script := [ok shot_cache; exit_with 2; ok ""; ok task_cache] in
  ∃ m st',
    run script entities = (Returned m, st') ∧
    ∀ e1 e2, e1 ∈ entities → e2 ∈ entities → e1.1 = e2.1 →
             m !! e1 = m !! e2.
Proof.
  exact (same_type_same_commands scripted str_of_error "linux2" "/pc"
           [("Shot", 100%Z); ("Shot", 101%Z); ("Task", 5%Z)]
           (start [ok shot_cache; exit_with 2; ok ""; ok task_cache])
           eq_refl).
Defined.

(** Two entities of type [Shot] apart in the list: the cache of the type
    is found out of date and rebuilt between the two groups, and the two
    entities get different commands. *)
Lemma scattered_type_two_command_lists :
  let entities := [("Shot", 1%Z); ("Task", 5%Z); ("Shot", 2%Z)] in
  let script := [ok shot_cache; ok task_cache;
                 exit_with 1; ok ""; ok new_shot_cache] in
  ∃ m st',
    run script entities = (Returned m, st') ∧
    m !! ("Shot", 1%Z)
    = Some [mkCommand "launch_maya" "Launch Maya" "/icons/maya.png";
            mkCommand "publish" "Publish..." "/icons/publish.png"] ∧
    m !! ("Shot", 2%Z)
    = Some [mkCommand "launch_houdini" "Launch Houdini"
              "/icons/houdini.png"] ∧
    ¬ ∀ e1 e2, e1 ∈ entities → e2 ∈ entities → e1.1 = e2.1 →
               m !! e1 = m !! e2.
Proof.
  intros entities script.
  destruct (run_spec scripted str_of_error "linux2" "/pc" entities
              (start script)) as (m & st' & Hr & _ & _ & _ & Hm).
  exists m, st'. split; [exact Hr|].
  assert (H1 : m !! ("Shot", 1%Z)
    = Some [mkCommand "launch_maya" "Launch Maya" "/icons/maya.png";
            mkCommand "publish" "Publish..." "/icons/publish.png"]).
  { rewrite Hm. vm_compute. reflexivity. }
  assert (H2 : m !! ("Shot", 2%Z)
    = Some [mkCommand "launch_houdini" "Launch Houdini"
              "/icons/houdini.png"]).
  { rewrite Hm. vm_compute. reflexivity. }
  split; [exact H1|]. split; [exact H2|]. intros H.
  specialize (H ("Shot", 1%Z) ("Shot", 2%Z)).
  rewrite H1, H2 in H. discriminate H; [by left|by do 2 right; left|done].
Qed.

Lemma one_command_list_per_type_witness :
  let entities := [("Shot", 100%Z); ("Shot", 101%Z); ("Task", 5%Z)] in
  let script := [ok shot_cache; exit_with 2; ok ""; ok task_cache] in
  ∃ m st',
    run script entities = (Returned m, st') ∧
    (∀ e, is_Some (m !! e) ↔ e ∈ entities) ∧
    (∃ per_type : string → list Command,
       ∀ e, e ∈ entities → m !! e = Some (per_type e.1)) ∧
    count_command_lists m ≤ count_types entities.
Proof.
  refine (proj2 (one_command_list_per_type scripted str_of_error "linux2"
                   "/pc"
                   [("Shot", 100%Z); ("Shot", 101%Z); ("Task", 5%Z)]
                   (start [ok shot_cache; exit_with 2; ok "";
                           ok task_cache]))
            eq_refl _).
  vm_compute.
  repeat (constructor; [by eexists|]). constructor.
Defined.

(** Two entity types whose caches hold the same commands: one list of
    commands for two types. *)
Lemma two_types_one_command_list :
  let entities := [("Shot", 1%Z); ("Task", 5%Z)] in
  let script := [ok shot_cache; ok shot_cache] in
  contiguous_types entities = true ∧
  Forall succeeded
    (attempts scripted str_of_error "linux2" "/pc" (groupby entities)
       (start script)) ∧
  count_types entities = 2 ∧
  ∃ m st',
    run script entities = (Returned m, st') ∧
    count_command_lists m = 1.
Proof.
  intros entities script. split; [reflexivity|]. split.
  { vm_compute.
    repeat (constructor; [by eexists|]). constructor. }
  split; [reflexivity|].
  destruct (run_spec scripted str_of_error "linux2" "/pc" entities
              (start script)) as (m & st' & Hr & _).
  exists m, st'. split; [exact Hr|].
  assert (m = match (run script entities).1 with
              | Returned m => m
              | Raised _ => ∅
              end) as ->.
  { unfold run. by rewrite Hr. }
  vm_compute. reflexivity.
Qed.

End Examples.

(** ** The hook *)

Section HookFacts.
Import MaxPubPublishFile.

Variable permitted : gmap location node → access → location → bool.
Variable umask : Z.
Variable cwd : location.

(** Resolution looks at nothing but which locations are directories and
    which of them may be searched. *)
Lemma walk_ext (fs1 fs2 : gmap location node) :
  (∀ l, is_dir (fs1 !! l) = is_dir (fs2 !! l)) →
  (∀ l, permitted fs1 SearchAccess l = permitted fs2 SearchAccess l) →
  ∀ (names : list string) (cur : location),
    walk permitted fs1 cur names = walk permitted fs2 cur names.
Proof.
  intros H Hp names.
  induction names as [|name names IH]; intros cur; simpl; [done|].
  rewrite H, Hp. destruct (is_dir (fs2 !! cur)); [|done].
  by rewrite !IH.
Qed.

Lemma resolve_ext (fs1 fs2 : gmap location node) (path : string) :
  (∀ l, is_dir (fs1 !! l) = is_dir (fs2 !! l)) →
  (∀ l, permitted fs1 SearchAccess l = permitted fs2 SearchAccess l) →
  resolve permitted cwd path fs1 = resolve permitted cwd path fs2.
Proof.
  intros H Hp. unfold resolve.
  destruct (String.eqb path "" || has_nul path); [done|].
  destruct (PyStr.split "/" path) as [|[|a s] names];
    by apply walk_ext.
Qed.

Lemma resolve_insert (fs : gmap location node) (l : location)
    (content : string) (mode : Z) (path : string) :
  is_dir (fs !! l) = false →
  search_unchanged permitted fs l →
  resolve permitted cwd path (<[l := File content mode]> fs)
  = resolve permitted cwd path fs.
Proof.
  intros H Hp. apply resolve_ext; [|apply Hp]. intros l'.
  destruct (decide (l = l')) as [<-|Hne].
  - by rewrite lookup_insert_eq.
  - by rewrite lookup_insert_ne.
Qed.

Lemma resolve_no_nul (fs : gmap location node) (path : string)
    (l : location) :
  resolve permitted cwd path fs = Some l → has_nul path = false.
Proof.
  unfold resolve. destruct (has_nul path); [|done].
  by rewrite orb_true_r.
Qed.

Lemma S_IMODE_idemp (m : Z) : S_IMODE (S_IMODE m) = S_IMODE m.
Proof.
  unfold S_IMODE. rewrite <- Z.land_assoc. by rewrite Z.land_diag.
Qed.

(** The calls that only look at the file system leave it as it is. *)
Lemma stat_pure (fs : gmap location node) (path : string) :
  ∃ r, stat permitted cwd path fs = (r, fs).
Proof.
  unfold stat. destruct (has_nul path); [by eexists|].
  destruct (resolve permitted cwd path fs) as [l|]; [|by eexists].
  destruct (fs !! l); by eexists.
Qed.

Lemma isdir_pure (fs : gmap location node) (path : string) :
  ∃ r, isdir permitted cwd path fs = (r, fs).
Proof.
  unfold isdir, try_except, mbind, M_bind, bind, mret, M_ret, ret.
  destruct (stat_pure fs path) as [[st|e] ->]; [by eexists|].
  destruct e; by eexists.
Qed.

Lemma _samefile_pure (fs : gmap location node) (src dst : string) :
  ∃ r, _samefile permitted cwd src dst fs = (r, fs).
Proof.
  unfold _samefile, samefile, try_except, mbind, M_bind, bind, mret, M_ret,
    ret.
  destruct (stat_pure fs src) as [[s1|e] ->]; [|destruct e; by eexists].
  destruct (stat_pure fs dst) as [[s2|e] ->]; [by eexists|].
  destruct e; by eexists.
Qed.

Lemma stat_resolved (fs : gmap location node) (path : string)
    (l : location) :
  resolve permitted cwd path fs = Some l →
  stat permitted cwd path fs
  = match fs !! l with
    | Some n => (Returned (l, n), fs)
    | None => (Raised OSError, fs)
    end.
Proof.
  intros H. unfold stat. by rewrite (resolve_no_nul _ _ _ H), H.
Qed.

Lemma isdir_resolved (fs : gmap location node) (path : string)
    (l : location) :
  resolve permitted cwd path fs = Some l →
  isdir permitted cwd path fs = (Returned (is_dir (fs !! l)), fs).
Proof.
  intros H.
  unfold isdir, try_except, mbind, M_bind, bind, mret, M_ret, ret.
  rewrite (stat_resolved _ _ _ H). by destruct (fs !! l).
Qed.

Lemma _samefile_resolved (fs : gmap location node) (src dst : string)
    (ls lt : location) (n : node) :
  resolve permitted cwd src fs = Some ls →
  fs !! ls = Some n →
  resolve permitted cwd dst fs = Some lt →
  _samefile permitted cwd src dst fs = (Returned (bool_decide (ls = lt)), fs).
Proof.
  intros Hrs Hs Hrt.
  unfold _samefile, samefile, try_except, mbind, M_bind, bind, mret, M_ret,
    ret.
  rewrite (stat_resolved _ _ _ Hrs), Hs, (stat_resolved _ _ _ Hrt).
  destruct (fs !! lt) as [n'|] eqn:E; simpl; [done|].
  rewrite bool_decide_eq_false_2; [done|].
  intros <-. rewrite Hs in E. discriminate E.
Qed.

Lemma chmod_resolved (fs : gmap location node) (path : string)
    (l : location) (n : node) (m : Z) :
  resolve permitted cwd path fs = Some l →
  fs !! l = Some n →
  chmod permitted cwd path m fs
  = if permitted fs ChmodAccess l
    then (Returned (), <[l := set_mode n (S_IMODE m)]> fs)
    else (Raised OSError, fs).
Proof.
  intros H1 H2. unfold chmod. by rewrite (resolve_no_nul _ _ _ H1), H1, H2.
Qed.

(** [copyfile] between two files that are not the same. *)
Lemma copyfile_to (fs : gmap location node) (src dst content : string)
    (mode : Z) (ls lt : location) :
  resolve permitted cwd src fs = Some ls →
  fs !! ls = Some (File content mode) →
  resolve permitted cwd dst fs = Some lt →
  lt ≠ ls →
  is_dir (fs !! lt) = false →
  permitted fs ReadAccess ls = true →
  copyfile permitted umask cwd src dst fs
  = if permitted fs WriteAccess lt
    then (Returned (),
          <[lt := File content (mode_after_open fs umask lt)]> fs)
    else (Raised IOError, fs).
Proof.
  intros Hrs Hs Hrt Hne Hnd Hr.
  unfold copyfile. unfold mbind at 1, M_bind at 1, bind at 1.
  rewrite (_samefile_resolved _ _ _ _ _ _ Hrs Hs Hrt).
  rewrite bool_decide_eq_false_2 by congruence.
  unfold open_rb, open_wb, copyfileobj, mbind, M_bind, bind,
    mode_after_open.
  rewrite (resolve_no_nul _ _ _ Hrs), (resolve_no_nul _ _ _ Hrt).
  rewrite Hrs, Hs, Hr, Hrt.
  destruct (fs !! lt) as [[c0 m0|m0]|] eqn:E; [|done|];
    (destruct (permitted fs WriteAccess lt); [|done]);
    rewrite lookup_insert_eq, (lookup_insert_ne _ _ _ _ Hne), Hs;
    by rewrite insert_insert_eq.
Qed.

(** [copymode] onto the file that [copyfile] made. *)
Lemma copymode_to (fs : gmap location node) (src dst content c : string)
    (mode m : Z) (ls lt : location) :
  resolve permitted cwd src fs = Some ls →
  fs !! ls = Some (File content mode) →
  resolve permitted cwd dst fs = Some lt →
  fs !! lt = Some (File c m) →
  copymode permitted cwd src dst fs
  = if permitted fs ChmodAccess lt
    then (Returned (), <[lt := File c (S_IMODE mode)]> fs)
    else (Raised OSError, fs).
Proof.
  intros Hrs Hs Hrt Ht.
  unfold copymode, mbind, M_bind, bind.
  rewrite (stat_resolved _ _ _ Hrs), Hs.
  rewrite (chmod_resolved _ _ _ _ _ Hrt Ht). simpl.
  by rewrite S_IMODE_idemp.
Qed.

(** [copyfile] and then [copymode], as [copy] calls them. *)
Lemma copy_to (fs : gmap location node) (src dst content : string)
    (mode : Z) (ls lt : location) :
  resolve permitted cwd src fs = Some ls →
  fs !! ls = Some (File content mode) →
  resolve permitted cwd dst fs = Some lt →
  lt ≠ ls →
  is_dir (fs !! lt) = false →
  permitted fs ReadAccess ls = true →
  permitted fs WriteAccess lt = true →
  (∀ fs', permitted fs' ChmodAccess lt = true) →
  search_unchanged permitted fs lt →
  (copyfile permitted umask cwd src dst;; copymode permitted cwd src dst) fs
  = (Returned (), <[lt := File content (S_IMODE mode)]> fs).
Proof.
  intros Hrs Hs Hrt Hne Hnd Hr Hw Hc Hx. unfold mbind, M_bind, bind.
  rewrite (copyfile_to _ _ _ _ _ _ _ Hrs Hs Hrt Hne Hnd Hr), Hw.
  rewrite (copymode_to _ src dst content content mode
             (mode_after_open fs umask lt) ls lt).
  - by rewrite Hc, insert_insert_eq.
  - by rewrite resolve_insert.
  - by rewrite lookup_insert_ne.
  - by rewrite resolve_insert.
  - by rewrite lookup_insert_eq.
Qed.

(** [execute] with a file, or a new name, as target. *)
Lemma execute_ok (fs : gmap location node)
    (source_path target_path content : string) (mode : Z)
    (ls lt : location) :
  resolve permitted cwd source_path fs = Some ls →
  fs !! ls = Some (File content mode) →
  resolve permitted cwd target_path fs = Some lt →
  lt ≠ ls →
  is_dir (fs !! lt) = false →
  permitted fs ReadAccess ls = true →
  permitted fs WriteAccess lt = true →
  (∀ fs', permitted fs' ChmodAccess lt = true) →
  search_unchanged permitted fs lt →
  execute permitted umask cwd source_path target_path fs
  = (Returned (), <[lt := File content mode_0444]> fs).
Proof.
  intros Hrs Hs Hrt Hne Hnd Hr Hw Hc Hx.
  unfold execute, copy. unfold mbind at 1 2, M_bind at 1 2, bind at 1 2.
  rewrite (isdir_resolved _ _ _ Hrt), Hnd.
  rewrite (copy_to _ _ _ _ _ _ _ Hrs Hs Hrt Hne Hnd Hr Hw Hc Hx).
  rewrite (chmod_resolved _ _ lt (File content (S_IMODE mode))).
  - by rewrite Hc, insert_insert_eq.
  - by rewrite resolve_insert.
  - by rewrite lookup_insert_eq.
Qed.


(** [copyfile] from what cannot be opened for reading. *)
Lemma copyfile_without_source (fs : gmap location node) (src dst : string) :
  match resolve permitted cwd src fs with
  | Some ls =>
      match fs !! ls with
      | Some (File _ _) => permitted fs ReadAccess ls = false
      | Some (Dir _) => True
      | None => True
      end
  | None => True
  end →
  ∃ e, copyfile permitted umask cwd src dst fs = (Raised e, fs).
Proof.
  intros H.
  unfold copyfile. unfold mbind at 1, M_bind at 1, bind at 1.
  destruct (_samefile_pure fs src dst) as [[[|]|e] ->];
    [by eexists| |by eexists].
  unfold open_rb, mbind, M_bind, bind.
  destruct (has_nul src); [by eexists|].
  destruct (resolve permitted cwd src fs) as [ls|]; [|by eexists].
  destruct (fs !! ls) as [[c m|m]|]; [rewrite H| |]; by eexists.
Qed.

(** X14. When [source_path] is missing, is a directory or is a regular
    file that may not be read, [execute] raises an exception and the file
    system is as it was: nothing is created at [target_path]. *)
Theorem execute_without_source (fs : gmap location node)
    (source_path target_path : string) :
  match resolve permitted cwd source_path fs with
  | Some ls =>
      match fs !! ls with
      | Some (File _ _) => permitted fs ReadAccess ls = false
      | Some (Dir _) => True
      | None => True
      end
  | None => True
  end →
  ∃ e, execute permitted umask cwd source_path target_path fs
       = (Raised e, fs).
Proof.
  intros H.
  unfold execute, copy. unfold mbind, M_bind, bind.
  destruct (isdir_pure fs target_path) as [[d|e] ->]; [|by eexists].
  match goal with
  | |- context [copyfile permitted umask cwd source_path ?dst fs] =>
      destruct (copyfile_without_source fs source_path dst H) as [e ->]
  end.
  by exists e.
Qed.

(** X15. A file is not published onto itself: when [source_path] and
    [target_path] name the same regular file, however the two paths are
    spelled, [execute] raises the error of [shutil] and the file system
    is as it was. *)
Theorem execute_onto_itself (fs : gmap location node)
    (source_path target_path content : string) (mode : Z) (l : location) :
  resolve permitted cwd source_path fs = Some l →
  resolve permitted cwd target_path fs = Some l →
  fs !! l = Some (File content mode) →
  execute permitted umask cwd source_path target_path fs
  = (Raised ShutilError, fs).
Proof.
  intros Hrs Hrt Hl.
  unfold execute, copy. unfold mbind, M_bind, bind.
  rewrite (isdir_resolved _ _ _ Hrt), Hl. cbn [is_dir S_ISDIR].
  unfold copyfile. unfold mbind, M_bind, bind.
  rewrite (_samefile_resolved _ _ _ _ _ _ Hrs Hl Hrt).
  by rewrite bool_decide_eq_true_2.
Qed.

(** X16. When [source_path] names a regular file that may be read and
    [target_path] names another regular file or a new name in a
    directory that the operating system does not let be opened for
    writing, as for the owner of a file that an earlier [execute] left
    with mode [0444], [execute] raises [IOError] and the file system is
    as it was: the published file is not replaced. *)
Theorem execute_refused_target (fs : gmap location node)
    (source_path target_path content : string) (mode : Z)
    (ls lt : location) :
  resolve permitted cwd source_path fs = Some ls →
  fs !! ls = Some (File content mode) →
  resolve permitted cwd target_path fs = Some lt →
  lt ≠ ls →
  is_dir (fs !! lt) = false →
  permitted fs ReadAccess ls = true →
  permitted fs WriteAccess lt = false →
  execute permitted umask cwd source_path target_path fs
  = (Raised IOError, fs).
Proof.
  intros Hrs Hs Hrt Hne Hnd Hr Hw.
  unfold execute, copy. unfold mbind, M_bind, bind.
  rewrite (isdir_resolved _ _ _ Hrt), Hnd.
  by rewrite (copyfile_to _ _ _ _ _ _ _ Hrs Hs Hrt Hne Hnd Hr), Hw.
Qed.



(** X19. Under an operating system that refuses nothing, when
    [source_path] names a regular file and [target_path] names another
    regular file or a new name in a directory, [execute] twice is
    [execute] once: the second call returns and leaves the file system
    the first call left. *)
Theorem execute_twice (fs fs1 : gmap location node)
    (source_path target_path content : string) (mode : Z)
    (ls lt : location) :
  resolve permitted cwd source_path fs = Some ls →
  fs !! ls = Some (File content mode) →
  resolve permitted cwd target_path fs = Some lt →
  lt ≠ ls →
  is_dir (fs !! lt) = false →
  (∀ fs' a l, permitted fs' a l = true) →
  execute permitted umask cwd source_path target_path fs
  = (Returned (), fs1) →
  execute permitted umask cwd source_path target_path fs1
  = (Returned (), fs1).
Proof.
  intros Hrs Hs Hrt Hne Hnd Hp.
  assert (Hx : ∀ fs' l, search_unchanged permitted fs' l).
  { intros fs' l c m l'. by rewrite !Hp. }
  rewrite (execute_ok fs _ _ content mode ls lt) by done. intros [= <-].
  rewrite (execute_ok _ source_path target_path content mode ls lt).
  - by rewrite insert_insert_eq.
  - by rewrite resolve_insert.
  - by rewrite lookup_insert_ne.
  - by rewrite resolve_insert.
  - done.
  - by rewrite lookup_insert_eq.
  - done.
  - done.
  - done.
  - done.
Qed.

End HookFacts.



Lemma execute_without_source_witness :
  ∃ e, Scenario.publish "/work/missing.max" "/publish/scene_v001.max"
       = (Raised e, Scenario.studio).
Proof.
  apply (execute_without_source Scenario.permissive 18 ["work"]
           Scenario.studio "/work/missing.max" "/publish/scene_v001.max").
  vm_compute. exact I.
Defined.

Lemma execute_onto_itself_witness :
  Scenario.publish "/work/scene.max" "/work/./scene.max"
  = (Raised MaxPubPublishFile.ShutilError, Scenario.studio).
Proof.
  apply (execute_onto_itself Scenario.permissive 18 ["work"] Scenario.studio
           "/work/scene.max" "/work/./scene.max" "3ds max scene" 420
           ["work"; "scene.max"]).
  - reflexivity.
  - reflexivity.
  - reflexivity.
Defined.

Lemma execute_refused_target_witness :
  MaxPubPublishFile.execute Scenario.owner_bits 18 ["work"] "scene.max"
    "/publish/scene_v001.max" Scenario.published
  = (Raised MaxPubPublishFile.IOError, Scenario.published).
Proof.
  apply (execute_refused_target Scenario.owner_bits 18 ["work"]
           Scenario.published "scene.max" "/publish/scene_v001.max"
           "3ds max scene" 420 ["work"; "scene.max"]
           ["publish"; "scene_v001.max"]).
  - reflexivity.
  - reflexivity.
  - reflexivity.
  - discriminate.
  - reflexivity.
  - reflexivity.
  - reflexivity.
Defined.



Lemma execute_twice_witness :
  MaxPubPublishFile.execute Scenario.permissive 18 ["work"] "/work/scene.max"
    "/publish/scene_v001.max" Scenario.published
  = (Returned (), Scenario.published).
Proof.
  apply (execute_twice Scenario.permissive 18 ["work"] Scenario.studio
           Scenario.published "/work/scene.max" "/publish/scene_v001.max"
           "3ds max scene" 420 ["work"; "scene.max"]
           ["publish"; "scene_v001.max"]).
  - reflexivity.
  - reflexivity.
  - reflexivity.
  - discriminate.
  - reflexivity.
  - reflexivity.
  - apply (execute_ok Scenario.permissive 18 ["work"] Scenario.studio
             "/work/scene.max" "/publish/scene_v001.max" "3ds max scene" 420
             ["work"; "scene.max"] ["publish"; "scene_v001.max"]);
      first [reflexivity | discriminate | intros content mode l; reflexivity].
Defined.

(** ** More on parsing *)

Section MoreParseFacts.

Lemma split_length (sep : ascii) (s : string) :
  length (split sep s) = S (count_char sep s).
Proof.
  induction s as [|c s IH]; [done|]. simpl.
  destruct (Ascii.eqb c sep); simpl; [by rewrite IH|].
  destruct (split sep s) as [|tok toks]; simpl in *; [done|]. by rewrite <- IH.
Qed.

Lemma split_tokens_no_sep (sep : ascii) (s tok : string) :
  tok ∈ split sep s → occurs sep tok = false.
Proof.
  revert tok. induction s as [|c s IH]; intros tok; simpl.
  - intros ->%list_elem_of_singleton. done.
  - destruct (Ascii.eqb c sep) eqn:E.
    + intros [->|H]%elem_of_cons; [done|by apply IH].
    + destruct (split sep s) as [|t ts].
      * intros ->%list_elem_of_singleton. simpl. by rewrite E.
      * intros [->|H]%elem_of_cons.
        -- simpl. rewrite E. apply IH. by left.
        -- apply IH. by right.
Qed.

Lemma split_tokens_occurs (sep c : ascii) (s tok : string) :
  tok ∈ split sep s → occurs c tok = true → occurs c s = true.
Proof.
  revert tok. induction s as [|x s IH]; intros tok; simpl.
  - intros ->%list_elem_of_singleton. done.
  - destruct (Ascii.eqb x sep) eqn:E.
    + intros [->|H]%elem_of_cons; [done|].
      intros Ho. rewrite (IH _ H Ho). apply orb_true_r.
    + destruct (split sep s) as [|t ts].
      * intros ->%list_elem_of_singleton. simpl.
        rewrite orb_false_r. intros ->. done.
      * intros [->|H]%elem_of_cons; simpl.
        -- destruct (Ascii.eqb x c); [done|]. simpl. intros Ho.
           apply (IH t); [by left|done].
        -- intros Ho. rewrite (IH _ (list_elem_of_further _ _ _ H) Ho).
           apply orb_true_r.
Qed.

Lemma splitlines_no_break (s line : string) :
  line ∈ splitlines s → occurs LF line = false ∧ occurs CR line = false.
Proof.
  remember (String.length s) as n eqn:Hn. revert s Hn line.
  induction n as [n IH] using lt_wf_ind. intros s Hn line.
  destruct s as [|c s]; [by intros ?%elem_of_nil|].
  assert (Hrec : ∀ t l, String.length t ≤ String.length s →
            l ∈ splitlines t → occurs LF l = false ∧ occurs CR l = false).
  { intros t l Hlen. apply (IH (String.length t)); [simpl in Hn; lia|done]. }
  rewrite splitlines_String.
  destruct (Ascii.eqb c LF) eqn:E1.
  { intros [->|H]%elem_of_cons; [done|]. by apply (Hrec s). }
  destruct (Ascii.eqb c CR) eqn:E2.
  { destruct s as [|c' s']; [by intros ->%list_elem_of_singleton|].
    destruct (Ascii.eqb c' LF).
    - intros [->|H]%elem_of_cons; [done|]. apply (Hrec s'); [simpl; lia|done].
    - intros [->|H]%elem_of_cons; [done|]. by apply (Hrec (String c' s')). }
  destruct (splitlines s) as [|l ls] eqn:Es.
  { intros ->%list_elem_of_singleton. simpl. by rewrite E1, E2. }
  intros [->|H]%elem_of_cons.
  - simpl. rewrite E1, E2. simpl. apply (Hrec s); [done|]. rewrite Es. by left.
  - apply (Hrec s); [done|]. rewrite Es. by right.
Qed.

(** A parse that returns has read well formed lines only, and its records
    are those of the lines. *)
Lemma parse_returned (data : string) (cmds : list Command) :
  _parse_cached_commands data = Returned cmds →
  Forall well_formed_line (splitlines data) ∧
  Forall2 record_of_line (splitlines data) cmds.
Proof.
  unfold _parse_cached_commands. intros Hp.
  destruct (decide (Exists (λ line, ¬ well_formed_line line) (splitlines data)))
    as [H|H].
  - apply first_malformed in H as (good & line & rest & E & Hg & Hl).
    rewrite E, parse_lines_malformed in Hp by done. discriminate Hp.
  - apply not_Exists_Forall in H; [|apply _].
    assert (Hwf : Forall well_formed_line (splitlines data)).
    { eapply Forall_impl; [exact H|]. simpl. intros l Hl.
      by destruct (decide (well_formed_line l)). }
    split; [done|].
    destruct (parse_lines_well_formed data _ [] Hwf) as (cmds' & E & HF).
    rewrite E in Hp. by injection Hp as <-.
Qed.

Lemma record_of_line_unique (lines : list string) (c1 c2 : list Command) :
  Forall2 record_of_line lines c1 → Forall2 record_of_line lines c2 → c1 = c2.
Proof.
  intros H. revert c2. induction H as [|l c ls cs Hc _ IH]; intros c2 H2.
  - by apply Forall2_nil_inv_l in H2.
  - apply Forall2_cons_inv_l in H2 as (c' & cs' & Hc' & H2 & ->).
    f_equal; [|by apply IH].
    destruct Hc as (A1 & A2 & A3), Hc' as (B1 & B2 & B3).
    destruct c, c'. simpl in *. congruence.
Qed.

(** X1. The parser reads tokens 0, 1 and 4 of a line and nothing else: a
    text whose lines have, one by one, the same three tokens as the lines
    of a text that is parsed with success is parsed into the same list. *)
Theorem parse_reads_three_tokens (data1 data2 : string)
    (commands : list Command) :
  _parse_cached_commands data1 = Returned commands →
  Forall2 same_fields (splitlines data1) (splitlines data2) →
  _parse_cached_commands data2 = Returned commands.
Proof.
  intros [Hwf HF]%parse_returned Hsame.
  assert (HF2 : Forall2 record_of_line (splitlines data2) commands).
  { clear Hwf. revert commands HF.
    induction Hsame as [|l1 l2 ls1 ls2 Hs _ IH]; intros commands HF.
    - apply Forall2_nil_inv_l in HF as ->. constructor.
    - apply Forall2_cons_inv_l in HF as (c & cs & Hc & HF & ->).
      constructor; [|by apply IH].
      destruct Hs as (S0 & S1 & S4), Hc as (R0 & R1 & R4).
      unfold record_of_line. by rewrite <- S0, <- S1, <- S4. }
  assert (Hwf2 : Forall well_formed_line (splitlines data2)).
  { clear -HF2. induction HF2 as [|l c ls cs Hc _ IH]; constructor; [|done].
    destruct Hc as (_ & _ & R4). apply lookup_lt_Some in R4.
    unfold well_formed_line. lia. }
  unfold _parse_cached_commands.
  destruct (parse_lines_well_formed data2 _ [] Hwf2) as (cmds' & -> & HF').
  f_equal. by apply (record_of_line_unique (splitlines data2)).
Qed.

Lemma parse_reads_three_tokens_witness :
  _parse_cached_commands ("a$b$c$d$e$f" +:+ nl +:+ "g$h$$$i")
  = Returned [mkCommand "a" "b" "e"; mkCommand "g" "h" "i"].
Proof.
  apply (parse_reads_three_tokens ("a$b$$$e" +:+ nl +:+ "g$h$x$y$i" +:+ nl)).
  - reflexivity.
  - vm_compute. repeat constructor.
Defined.

(** X2. No field of a command that the parser returns holds a [$], a line
    feed or a carriage return. *)
Theorem parsed_fields_are_plain (data : string) (commands : list Command) :
  _parse_cached_commands data = Returned commands →
  Forall (λ c, plain (name c) ∧ plain (title c) ∧ plain (icon c)) commands.
Proof.
  intros [_ HF]%parse_returned.
  assert (Hlines : Forall (λ l, occurs LF l = false ∧ occurs CR l = false)
                     (splitlines data)).
  { apply Forall_forall. intros l Hl. by apply (splitlines_no_break data). }
  assert (Htok : ∀ line (i : nat) tok,
            occurs LF line = false → occurs CR line = false →
            split "$" line !! i = Some tok → plain tok).
  { intros line i tok H1 H2 Hi. apply list_elem_of_lookup_2 in Hi.
    split; [by apply (split_tokens_no_sep _ line)|].
    split; apply not_true_is_false; intros Ho;
      apply (split_tokens_occurs _ _ _ _ Hi) in Ho; congruence. }
  induction HF as [|l c ls cs (R0 & R1 & R4) _ IH]; [constructor|].
  apply Forall_cons in Hlines as [[H1 H2] Hlines].
  constructor; [|by apply IH].
  split; [by apply (Htok l 0)|split; [by apply (Htok l 1)|by apply (Htok l 4)]].
Qed.

Lemma parsed_fields_are_plain_witness :
  Forall (λ c, plain (name c) ∧ plain (title c) ∧ plain (icon c))
    [mkCommand "launch_nuke" "Launch Nuke" "/icons/nuke.png"].
Proof.
  apply (parsed_fields_are_plain Scenario.task_cache). reflexivity.
Defined.

(** X3. A text is parsed with success exactly when each of its lines has
    at least four [$]. *)
Theorem parse_returns_iff_four_dollars (data : string) :
  (∃ commands, _parse_cached_commands data = Returned commands) ↔
  Forall (λ line, 4 ≤ count_char "$" line) (splitlines data).
Proof.
  assert (Hwf : ∀ line, well_formed_line line ↔ 4 ≤ count_char "$" line).
  { intros line. unfold well_formed_line. rewrite split_length. lia. }
  split.
  - intros [cmds [H _]%parse_returned].
    eapply Forall_impl; [exact H|]. intros l. apply Hwf.
  - intros H. unfold _parse_cached_commands.
    destruct (parse_lines_well_formed data (splitlines data) [])
      as (cmds & -> & _); [|by eexists].
    eapply Forall_impl; [exact H|]. intros l. apply Hwf.
Qed.

End MoreParseFacts.

(** ** Texts put together *)

Section ConcatFacts.

Lemma splitlines_nonempty (s : string) : s ≠ "" → splitlines s ≠ [].
Proof.
  destruct s as [|c s]; [done|]. intros _. rewrite splitlines_String.
  destruct (Ascii.eqb c LF); [done|].
  destruct (Ascii.eqb c CR).
  - destruct s as [|c' s']; [done|]. by destruct (Ascii.eqb c' LF).
  - by destruct (splitlines s).
Qed.

(** The lines of [a], a line feed and [b] are the lines of [a] and then
    the lines of [b], when [a] is not empty and has no line feed at its
    end. *)
Lemma splitlines_app (a b : string) :
  a ≠ "" → ends_with LF a = false →
  splitlines (a +:+ nl +:+ b) = splitlines a ++ splitlines b.
Proof.
  remember (String.length a) as n eqn:Hn. revert a Hn.
  induction n as [n IH] using lt_wf_ind. intros a Hn Hne Hend.
  destruct a as [|c a]; [done|].
  destruct a as [|c' a'].
  - simpl in Hend.
    change (splitlines (String c (String LF b))
            = splitlines (String c "") ++ splitlines b).
    rewrite !(splitlines_String c). rewrite Hend.
    rewrite (splitlines_String LF b).
    change (Ascii.eqb LF LF) with true. cbv iota.
    destruct (Ascii.eqb c CR); reflexivity.
  - assert (Hrec : ∀ t, t ≠ "" → ends_with LF t = false →
              String.length t < n →
              splitlines (t +:+ nl +:+ b) = splitlines t ++ splitlines b).
    { intros t ? ? ?. by eapply IH. }
    assert (Hend' : ends_with LF (String c' a') = false) by exact Hend.
    simpl in Hn.
    change (String c (String c' a') +:+ nl +:+ b)
      with (String c (String c' a' +:+ nl +:+ b)).
    rewrite !(splitlines_String c).
    rewrite (Hrec (String c' a')) by (done || (simpl; lia)).
    destruct (Ascii.eqb c LF); [done|].
    destruct (Ascii.eqb c CR).
    + change (String c' a' +:+ nl +:+ b) with (String c' (a' +:+ nl +:+ b)).
      cbv iota.
      destruct (Ascii.eqb c' LF) eqn:Ec'; [|done].
      destruct a' as [|c2 a2].
      * simpl in Hend'. congruence.
      * rewrite Hrec; [done|done|exact Hend'|subst n; simpl; lia].
    + pose proof (splitlines_nonempty (String c' a') ltac:(done)) as Hl.
      by destruct (splitlines (String c' a')).
Qed.

(** A text that is empty or ends with a line feed gets an empty last line
    from one more line feed. *)
Lemma splitlines_blank_last (s : string) :
  s = "" ∨ ends_with LF s = true →
  splitlines (s +:+ nl) = splitlines s ++ [""].
Proof.
  remember (String.length s) as n eqn:Hn. revert s Hn.
  induction n as [n IH] using lt_wf_ind. intros s Hn [->|Hend]; [done|].
  destruct s as [|c s]; [done|].
  assert (Hrec : ∀ t, String.length t ≤ String.length s →
            t = "" ∨ ends_with LF t = true →
            splitlines (t +:+ nl) = splitlines t ++ [""]).
  { intros t Hlen. apply (IH (String.length t)); [simpl in Hn; lia|done]. }
  assert (Hs : s = "" ∨ ends_with LF s = true).
  { destruct s; [by left|by right]. }
  change (String c s +:+ nl) with (String c (s +:+ nl)).
  rewrite !(splitlines_String c), (Hrec s) by done.
  destruct (Ascii.eqb c LF) eqn:E1; [done|].
  destruct s as [|c' s'].
  { simpl in Hend. congruence. }
  destruct (Ascii.eqb c CR).
  - change (String c' s' +:+ nl) with (String c' (s' +:+ nl)). cbv iota.
    destruct (Ascii.eqb c' LF); [|done].
    rewrite (Hrec s'); [done|simpl; lia|].
    destruct s' as [|c2 s2]; [by left|by right].
  - pose proof (splitlines_nonempty (String c' s') ltac:(done)) as Hl.
    by destruct (splitlines (String c' s')).
Qed.

Lemma parse_lines_app (data : string) (lines1 lines2 : list string)
    (acc cmds : list Command) :
  parse_lines data lines1 acc = Returned cmds →
  parse_lines data (lines1 ++ lines2) acc = parse_lines data lines2 cmds.
Proof.
  revert acc. induction lines1 as [|l ls IH]; intros acc; simpl.
  - by intros [= ->].
  - destruct (length (split "$" l) <? 5); [done|].
    destruct (split "$" l !! 0), (split "$" l !! 1), (split "$" l !! 4);
      try done.
    apply IH.
Qed.

Lemma parse_lines_acc (data : string) (lines : list string)
    (acc cmds : list Command) :
  parse_lines data lines [] = Returned cmds →
  parse_lines data lines acc = Returned (acc ++ cmds).
Proof.
  intros H.
  assert (Hwf : Forall well_formed_line lines).
  { destruct (decide (Exists (λ line, ¬ well_formed_line line) lines))
      as [Hex|Hex].
    - apply first_malformed in Hex as (good & line & rest & -> & Hg & Hl).
      rewrite parse_lines_malformed in H by done. discriminate H.
    - apply not_Exists_Forall in Hex; [|apply _].
      eapply Forall_impl; [exact Hex|]. simpl. intros l Hl.
      by destruct (decide (well_formed_line l)). }
  destruct (parse_lines_well_formed data lines [] Hwf) as (c0 & E0 & F0).
  destruct (parse_lines_well_formed data lines acc Hwf) as (c1 & E1 & F1).
  rewrite E0 in H. injection H as <-. rewrite E1. f_equal. f_equal.
  by apply (record_of_line_unique lines).
Qed.

Lemma parse_lines_data (data data' : string) (lines : list string)
    (acc cmds : list Command) :
  parse_lines data lines acc = Returned cmds →
  parse_lines data' lines acc = Returned cmds.
Proof.
  intros H. pose proof (parse_lines_same_lines data data' lines acc) as Hs.
  by rewrite H in Hs.
Qed.

(** X4. Two cache texts are put together with a line feed between them:
    when the first is not empty and does not end with a line feed, the
    whole is parsed with success exactly when both parts are, and the
    result is the commands of the first part followed by those of the
    second. *)
Theorem parse_concatenation (a b : string) :
  a ≠ "" → ends_with LF a = false →
  splitlines (a +:+ nl +:+ b) = splitlines a ++ splitlines b ∧
  (∀ ca cb,
     _parse_cached_commands a = Returned ca →
     _parse_cached_commands b = Returned cb →
     _parse_cached_commands (a +:+ nl +:+ b) = Returned (ca ++ cb)) ∧
  ((∃ c, _parse_cached_commands (a +:+ nl +:+ b) = Returned c) →
   (∃ ca, _parse_cached_commands a = Returned ca) ∧
   (∃ cb, _parse_cached_commands b = Returned cb)).
Proof.
  intros Hne Hend. pose proof (splitlines_app a b Hne Hend) as E.
  split; [done|]. split.
  - unfold _parse_cached_commands. rewrite E. intros ca cb Ha Hb.
    rewrite (parse_lines_app _ _ _ [] ca)
      by (by apply (parse_lines_data a)).
    apply parse_lines_acc. by apply (parse_lines_data b).
  - intros [c [Hwf _]%parse_returned]. rewrite E in Hwf.
    apply Forall_app in Hwf as [Ha Hb]. unfold _parse_cached_commands.
    destruct (parse_lines_well_formed a _ [] Ha) as (ca & -> & _).
    destruct (parse_lines_well_formed b _ [] Hb) as (cb & -> & _).
    eauto.
Qed.

Lemma parse_concatenation_witness :
  _parse_cached_commands ("a$b$c$d$e" +:+ nl +:+ Scenario.task_cache)
  = Returned [mkCommand "a" "b" "e";
              mkCommand "launch_nuke" "Launch Nuke" "/icons/nuke.png"].
Proof.
  apply (proj1 (proj2 (parse_concatenation "a$b$c$d$e" Scenario.task_cache
                         ltac:(discriminate) eq_refl))
           [mkCommand "a" "b" "e"]
           [mkCommand "launch_nuke" "Launch Nuke" "/icons/nuke.png"]);
    reflexivity.
Defined.

(** X5. A line feed added to a text that is empty or ends with a line feed
    makes an empty last line, and the text is then refused: the parser
    raises [TankError]. *)
Theorem parse_blank_last_line (s : string) :
  s = "" ∨ ends_with LF s = true →
  splitlines (s +:+ nl) = splitlines s ++ [""] ∧
  ∃ msg, _parse_cached_commands (s +:+ nl) = Raised (TankError msg).
Proof.
  intros H. pose proof (splitlines_blank_last s H) as E. split; [done|].
  destruct (parse_lines_cases (s +:+ nl) (splitlines (s +:+ nl)) [])
    as [[cmds Hc]|(line & _ & Hl)]; [|by eexists].
  apply parse_returned in Hc as [Hwf _]. rewrite E in Hwf.
  apply Forall_app in Hwf as [_ Hwf]. apply Forall_cons in Hwf as [Hwf _].
  unfold well_formed_line in Hwf. simpl in Hwf. lia.
Qed.

Lemma parse_blank_last_line_witness :
  ∃ msg, _parse_cached_commands (Scenario.task_cache +:+ nl)
         = Raised (TankError msg).
Proof.
  apply (parse_blank_last_line Scenario.task_cache). right. reflexivity.
Defined.

End ConcatFacts.

(** ** More on the names *)

Section MoreNameFacts.

Lemma string_length_app (a b : string) :
  String.length (a +:+ b) = String.length a + String.length b.
Proof.
  induction a as [|c a IH]; [done|].
  change (S (String.length (a +:+ b)) = S (String.length a + String.length b)).
  by rewrite IH.
Qed.

Lemma string_app_inj_r (a b s : string) : a +:+ s = b +:+ s → a = b.
Proof.
  revert b. induction a as [|c a IH]; intros [|c' b] H.
  - done.
  - apply (f_equal String.length) in H.
    rewrite !string_length_app in H. simpl in H. lia.
  - apply (f_equal String.length) in H.
    rewrite !string_length_app in H. simpl in H. lia.
  - change (String c (a +:+ s) = String c' (b +:+ s)) in H.
    injection H as -> H. f_equal. by apply IH.
Qed.

Lemma string_app_inj_l (s a b : string) : s +:+ a = s +:+ b → a = b.
Proof.
  induction s as [|c s IH]; [done|].
  change (String c (s +:+ a) = String c (s +:+ b) → a = b).
  intros [= H]. by apply IH.
Qed.

(** X6. The two names do not tell the case of the letters of the entity
    type apart, and tell everything else apart: on one platform, two
    entity types have the same cache name exactly when they are equal up to
    the case of their letters, and the same holds for the name of the
    environment. *)
Theorem names_up_to_case (platform type1 type2 : string) :
  (_get_cache_name platform type1 = _get_cache_name platform type2 ↔
   lower type1 = lower type2) ∧
  (_get_env_name type1 = _get_env_name type2 ↔ lower type1 = lower type2).
Proof.
  split.
  - unfold _get_cache_name.
    set (P := if String.eqb platform "darwin" then "mac"
              else if String.eqb platform "win32" then "windows"
              else if startswith platform "linux" then "linux"
              else platform).
    rewrite !lower_app. split.
    + intros H. apply string_app_inj_l in H. apply string_app_inj_l in H.
      apply string_app_inj_l in H. by apply string_app_inj_r in H.
    + by intros ->.
  - unfold _get_env_name. split.
    + intros H. apply string_app_inj_l in H. by apply string_app_inj_r in H.
    + by intros ->.
Qed.

End MoreNameFacts.

(** ** More on loading the cache *)

Section MoreLoadFacts.

Context {World : Type}.
Variable toolkit :
  string → string → list string → World →
  (string + SubprocessCalledProcessError) * World.
Variable str_of_error : SubprocessCalledProcessError → string.
Variable platform : string.

Abbreviation load' := (_load_cached_data toolkit str_of_error platform).

(** The calls of one [_load_cached_data], whatever the toolkit answers. *)
Lemma load_trace (pc entity_type : string) (entities : list entity)
    (st : State World) :
  let get := get_actions_call platform pc entity_type in
  let old := old_convention_call platform pc entity_type in
  let '(r, st') := load' pc entity_type entities st in
  logged st' = logged st ∧
  ∃ new, calls st' = calls st ++ new ∧
    match entities !! 0 with
    | None => new = [get] ∧ ∀ msg, r = Raised (TankError msg) →
                ∃ e, msg = get_failed_message str_of_error e
    | Some e =>
        let rebuild := new_convention_call platform pc entity_type e.2 in
        (new = [get] ∨ new = [get; rebuild; old]) ∧ (∀ out, r ≠ Returned out)
        ∨ (new = [get] ∨ new = [get; rebuild; get]
           ∨ new = [get; rebuild; old; get]) ∧
          ((∃ out, r = Returned out) ∨
           new ≠ [get] ∧
           ∃ e', r = Raised (TankError (reload_failed_message str_of_error e')))
    end.
Proof.
  intros get old.
  unfold _load_cached_data, try_except, except_subprocess,
    execute_toolkit_command, mbind, M_bind, bind, mret, M_ret, ret, raise.
  cbn [world calls logged].
  destruct (toolkit pc "shotgun_get_actions" _ (world st)) as [[o1|e1] w1];
    simpl.
  { split; [done|]. exists [get]. split; [done|].
    destruct (entities !! 0); [right|]; split; eauto. done. }
  case_bool_decide; simpl.
  2:{ split; [done|]. exists [get]. split; [done|].
      destruct (entities !! 0); [left|]; split; eauto.
      intros msg [= <-]. eauto. }
  destruct entities as [|e rest]; simpl.
  { split; [done|]. exists [get]. split; [done|]. split; [done|]. done. }
  destruct (toolkit pc "shotgun_cache_actions" _ w1) as [[o2|e2] w2]; simpl.
  - destruct (toolkit pc "shotgun_get_actions" _ w2) as [[o3|e3] w3]; simpl;
      (split; [done|]); eexists [get; _; get];
      (split; [by rewrite <- !app_assoc|]); right;
      (split; [eauto|]); [eauto|right; split; [done|eauto]].
  - destruct (toolkit pc "shotgun_cache_actions" _ w2) as [[o3|e3] w3]; simpl.
    + destruct (toolkit pc "shotgun_get_actions" _ w3) as [[o4|e4] w4]; simpl;
        (split; [done|]); eexists [get; _; old; get];
        (split; [by rewrite <- !app_assoc|]); right;
        (split; [eauto|]); [eauto|right; split; [done|eauto]].
    + split; [done|]. eexists [get; _; old].
      split; [by rewrite <- !app_assoc|]. left. split; [eauto|done].
Qed.

(** X7. However the toolkit answers, one [_load_cached_data] makes from
    one to four calls, all of them to the pipeline configuration it was
    given, among them at most two requests for a rebuild; it logs nothing;
    and when it returns, its last call is the request for the content of
    the cache. *)
Theorem load_call_budget (pc entity_type : string) (entities : list entity)
    (st : State World) :
  let '(r, st') := load' pc entity_type entities st in
  logged st' = logged st ∧
  ∃ new,
    calls st' = calls st ++ new ∧
    1 ≤ length new ≤ 4 ∧
    Forall (λ inv, inv_pc_path inv = pc) new ∧
    length (filter is_rebuild new) ≤ 2 ∧
    head new = Some (get_actions_call platform pc entity_type) ∧
    ∀ out, r = Returned out →
           last new = Some (get_actions_call platform pc entity_type).
Proof.
  pose proof (load_trace pc entity_type entities st) as H. cbv zeta in H.
  destruct (load' pc entity_type entities st) as [r st'].
  destruct H as (Hlog & new & Hcalls & H). split; [done|].
  exists new. split; [done|].
  destruct (entities !! 0) as [e|].
  - destruct H as [[[->| ->] Hr]|[[->|[->| ->]] Hr]]; simpl;
      (split; [lia|]); (split; [by repeat constructor|]);
      (split; [lia|]); (split; [done|]);
      intros out Hout; try done; by destruct (Hr out).
  - destruct H as [-> Hr]. simpl. split; [lia|].
    split; [by repeat constructor|]. split; [lia|]. done.
Qed.

(** X8. For an empty list of entities whose cache is out of date or
    missing, [_load_cached_data] raises [IndexError] after its first call:
    the rebuild is not asked for, and the error is not the [TankError]
    that [run_noninteractive] handles. *)
Theorem load_empty_group (pc entity_type : string) (st : State World)
    (e1 : SubprocessCalledProcessError) (w1 : World) :
  toolkit pc "shotgun_get_actions"
    [_get_cache_name platform entity_type; _get_env_name entity_type]
    (world st) = (inr e1, w1) →
  stale e1 →
  load' pc entity_type [] st
  = (Raised IndexError,
     mkState w1 (calls st ++ [get_actions_call platform pc entity_type])
       (logged st)) ∧
  ∀ m, handle_group toolkit str_of_error platform pc m (entity_type, []) st
       = (Raised IndexError,
          mkState w1 (calls st ++ [get_actions_call platform pc entity_type])
            (logged st)).
Proof.
  intros E1 Hst. apply (stale_in toolkit str_of_error platform) in Hst.
  assert (Hl : load' pc entity_type [] st
    = (Raised IndexError,
       mkState w1 (calls st ++ [get_actions_call platform pc entity_type])
         (logged st))).
  { unfold _load_cached_data, try_except, except_subprocess,
      execute_toolkit_command, mbind, M_bind, bind, mret, M_ret, ret, raise.
    cbn [world calls logged]. rewrite E1. simpl.
    by rewrite bool_decide_eq_true_2 by done. }
  split; [done|]. intros m.
  unfold handle_group, try_except, mbind, M_bind, bind. by rewrite Hl.
Qed.

End MoreLoadFacts.

Lemma load_empty_group_witness :
  Scenario.load [Scenario.exit_with 2; Scenario.ok ""] "Task" []
  = (Raised IndexError,
     mkState [Scenario.ok ""] ([] ++ [get_actions_call "linux2" "/pc" "Task"])
       []).
Proof.
  apply (load_empty_group Scenario.scripted Scenario.str_of_error "linux2"
           "/pc" "Task"
           (Scenario.start [Scenario.exit_with 2; Scenario.ok ""])
           (mkSubprocessError 2 [] "") [Scenario.ok ""]).
  - reflexivity.
  - right. reflexivity.
Defined.

(** ** More on grouping *)

Section MoreGroupFacts.

Lemma types_are_keys (entities : list entity) (k : string) :
  k ∈ entities.*1 → k ∈ (groupby entities).*1.
Proof.
  intros (e & -> & He)%list_elem_of_fmap.
  apply elem_of_groupby in He as (kg & Hkg & He).
  rewrite (groupby_key_type _ _ _ Hkg He). apply list_elem_of_fmap. eauto.
Qed.

Lemma groupby_NoDup_contiguous (entities : list entity) :
  NoDup (groupby entities).*1 → contiguous_types entities = true.
Proof.
  induction entities as [|e rest IH]; [done|].
  destruct rest as [|e' rest'].
  { intros _. reflexivity. }
  pose proof (types_are_keys (e' :: rest')) as Hkeys.
  destruct (groupby_head e' rest') as (g & gs & E).
  rewrite groupby_cons, E. intros Hnd. cbn [contiguous_types].
  rewrite E in IH, Hkeys.
  destruct (String.eqb_spec e.1 e'.1) as [Heq|Hne].
  - rewrite orb_true_l, andb_true_l. by apply IH.
  - change ((e.1, [e]) :: (e'.1, e' :: g) :: gs).*1
      with (e.1 :: ((e'.1, e' :: g) :: gs).*1) in Hnd.
    apply NoDup_cons in Hnd as [Hnotin Hnd].
    rewrite orb_false_l. apply andb_true_iff. split; [|by apply IH].
    apply negb_true_iff, not_true_iff_false. intros Hex.
    apply existsb_exists in Hex as (x & Hx & Heq).
    apply String.eqb_eq in Heq. apply Hnotin, Hkeys.
    rewrite Heq. apply list_elem_of_fmap. exists x.
    by rewrite list_elem_of_In.
Qed.

Lemma count_types_le_groups (entities : list entity) :
  remove_dups entities.*1 ⊆+ (groupby entities).*1.
Proof.
  apply NoDup_submseteq; [apply NoDup_remove_dups|].
  intros k Hk. rewrite elem_of_remove_dups in Hk. by apply types_are_keys.
Qed.

Lemma groups_count_iff_NoDup (entities : list entity) :
  length (groupby entities) = count_types entities ↔
  NoDup (groupby entities).*1.
Proof.
  unfold count_types. rewrite <- (length_fmap fst (groupby entities)). split.
  - intros Hlen.
    pose proof (submseteq_length_Permutation _ _
                  (count_types_le_groups entities)) as Hp.
    rewrite <- Hp by lia. apply NoDup_remove_dups.
  - intros Hnd. apply Permutation_length, NoDup_Permutation; [done| |].
    + apply NoDup_remove_dups.
    + intros k. rewrite elem_of_remove_dups. split.
      * apply groupby_keys_types.
      * apply types_are_keys.
Qed.

(** X9. [groupby] gives at least as many groups as the list has entity
    types, and exactly as many when, and only when, the entities of each
    type are next to each other. *)
Theorem groups_and_types (entities : list entity) :
  count_types entities ≤ length (groupby entities) ∧
  (length (groupby entities) = count_types entities ↔
   contiguous_types entities = true).
Proof.
  split.
  - unfold count_types. rewrite <- (length_fmap fst (groupby entities)).
    apply submseteq_length, count_types_le_groups.
  - rewrite groups_count_iff_NoDup. split.
    + apply groupby_NoDup_contiguous.
    + apply contiguous_groupby_NoDup.
Qed.

Lemma sorted_contiguous (entities : list entity) :
  sorted_by_type entities = true → contiguous_types entities = true.
Proof.
  induction entities as [|e rest IH]; [done|].
  cbn [sorted_by_type contiguous_types].
  intros [Hall Hs]%andb_true_iff. rewrite (IH Hs), andb_true_r.
  destruct rest as [|e' rest']; [done|].
  destruct (String.eqb_spec e.1 e'.1) as [Heq|Hne]; [done|].
  rewrite orb_false_l. apply negb_true_iff, not_true_iff_false.
  intros Hex. apply existsb_exists in Hex as (x & Hx & Heq).
  apply String.eqb_eq in Heq.
  cbn [sorted_by_type forallb] in Hall, Hs.
  apply andb_true_iff in Hall as [Hle _].
  apply andb_true_iff in Hs as [Hall' _].
  destruct Hx as [<-|Hx]; [done|].
  rewrite forallb_forall in Hall'. specialize (Hall' x Hx).
  rewrite <- Heq in Hall'. apply Hne.
  apply (anti_symm String.le); by apply Is_true_eq_left.
Qed.

(** X10. On a list sorted by entity type, as [sorted(entities)] leaves it,
    [groupby] makes exactly one group for each entity type. *)
Theorem sorted_one_group_per_type (entities : list entity) :
  sorted_by_type entities = true →
  NoDup (groupby entities).*1 ∧
  length (groupby entities) = count_types entities.
Proof.
  intros Hc%sorted_contiguous.
  pose proof (contiguous_groupby_NoDup _ Hc) as Hnd. split; [done|].
  by apply groups_count_iff_NoDup.
Qed.

Lemma sorted_one_group_per_type_witness :
  length (groupby [("Asset", 7%Z); ("Shot", 1%Z); ("Shot", 2%Z);
                   ("Task", 5%Z)])
  = count_types [("Asset", 7%Z); ("Shot", 1%Z); ("Shot", 2%Z); ("Task", 5%Z)].
Proof.
  apply (sorted_one_group_per_type
           [("Asset", 7%Z); ("Shot", 1%Z); ("Shot", 2%Z); ("Task", 5%Z)]).
  reflexivity.
Defined.

Lemma groupby_one_type (entities : list entity) (t : string) :
  entities ≠ [] → Forall (λ e : entity, e.1 = t) entities →
  groupby entities = [(t, entities)].
Proof.
  induction entities as [|e rest IH]; [done|]. intros _ Hall.
  apply Forall_cons in Hall as [<- Hall]. rewrite groupby_cons.
  destruct rest as [|e' rest']; [done|].
  rewrite IH by done. by rewrite String.eqb_refl.
Qed.

End MoreGroupFacts.

(** ** More on the loop over the groups *)

Section MoreRunFacts.

Context {World : Type}.
Variable toolkit :
  string → string → list string → World →
  (string + SubprocessCalledProcessError) * World.
Variable str_of_error : SubprocessCalledProcessError → string.
Variable platform : string.

Abbreviation attempts'' := (attempts toolkit str_of_error platform).
Abbreviation run'' := (run_noninteractive toolkit str_of_error platform).

(** X11. Whatever the list and the toolkit, a key of the result is an
    entity of the list, and its value is the list of commands that was
    parsed from the cache for a group of the type of the entity with the
    entity in it. *)
Theorem result_keys_and_values (pc : string) (entities : list entity)
    (st : State World) :
  ∃ m st',
    run'' pc entities st = (Returned m, st') ∧
    ∀ e commands, m !! e = Some commands →
      e ∈ entities ∧
      ∃ a, a ∈ attempts'' pc (groupby entities) st ∧
           a.1.1 = e.1 ∧ e ∈ a.1.2 ∧ a.2 = Returned commands.
Proof.
  destruct (run_spec toolkit str_of_error platform pc entities st)
    as (m & st' & Hr & _ & Hg & _ & Hm).
  exists m, st'. split; [done|]. intros e cmds He. rewrite Hm in He.
  apply last_success_from_inv in He as [?|(a & Ha & Hret & Hin)]; [done|].
  assert (Hkg : a.1 ∈ groupby entities).
  { rewrite <- Hg. apply list_elem_of_fmap. eauto. }
  split; [apply elem_of_groupby; eauto|].
  exists a. split; [done|]. split; [|done].
  symmetry. by apply (groupby_key_type entities).
Qed.

(** The calls of one group. *)
Lemma handle_group_calls (pc : string) (m : gmap entity (list Command))
    (entity_type : string) (group : list entity) (st : State World) :
  ∃ new,
    calls (handle_group toolkit str_of_error platform pc m
             (entity_type, group) st).2 = calls st ++ new ∧
    1 ≤ length new ≤ 4 ∧
    Forall (λ inv, inv_pc_path inv = pc) new.
Proof.
  rewrite handle_group_fetch. unfold fetch, mbind, M_bind, bind, lift.
  pose proof (load_trace toolkit str_of_error platform pc entity_type group st)
    as H. cbv zeta in H.
  destruct (_load_cached_data _ _ _ _ _ _ _) as [r st1].
  destruct H as (_ & new & Hcalls & H).
  assert (Hnew : 1 ≤ length new ≤ 4 ∧ Forall (λ inv, inv_pc_path inv = pc) new).
  { destruct (group !! 0) as [e|].
    - destruct H as [[[->| ->] _]|[[->|[->| ->]] _]]; simpl;
        (split; [lia|by repeat constructor]).
    - destruct H as [-> _]. simpl. split; [lia|by repeat constructor]. }
  exists new. split; [|done].
  destruct r as [out|[msg|e|]]; simpl; try done.
  destruct (_parse_cached_commands out) as [cmds|[msg|e|]]; done.
Qed.

Lemma for_groups_calls (pc : string) (groups : list (string * list entity))
    (m : gmap entity (list Command)) (st : State World) :
  Forall (λ kg, kg.2 ≠ []) groups →
  ∃ new,
    calls (for_groups toolkit str_of_error platform pc groups m st).2
    = calls st ++ new ∧
    length groups ≤ length new ≤ 4 * length groups ∧
    Forall (λ inv, inv_pc_path inv = pc) new.
Proof.
  intros H. revert m st.
  induction H as [|[t ents] groups Hne _ IH]; intros m st.
  - exists []. simpl. rewrite app_nil_r. split; [done|]. split; [lia|done].
  - cbn [for_groups]. unfold mbind, M_bind, bind.
    destruct (handle_group_calls pc m t ents st) as (new1 & Hc1 & Hl1 & Hp1).
    pose proof (fetch_outcome toolkit str_of_error platform pc t ents st Hne)
      as Hf.
    rewrite handle_group_fetch in Hc1 |- *.
    destruct (fetch _ _ _ _ _ _ _) as [r st1].
    destruct Hf as [_ [[cmds ->]|[msg ->]]].
    + destruct (IH (assign cmds ents m) st1) as (new2 & Hc2 & Hl2 & Hp2).
      exists (new1 ++ new2). rewrite Hc2. simpl in Hc1. rewrite Hc1.
      rewrite <- app_assoc, length_app. simpl.
      split; [done|]. split; [lia|by apply Forall_app].
    + destruct (IH m (log_error (fetch_failed_message pc t msg) st1).2)
        as (new2 & Hc2 & Hl2 & Hp2).
      exists (new1 ++ new2). rewrite Hc2. simpl in Hc1 |- *. rewrite Hc1.
      rewrite <- app_assoc, length_app. simpl.
      split; [done|]. split; [lia|by apply Forall_app].
Qed.

Lemma length_concat_nonempty (gs : list (string * list entity)) :
  Forall (λ kg, kg.2 ≠ []) gs → length gs ≤ length (concat gs.*2).
Proof.
  induction 1 as [|[k g] gs Hg _ IH]; [done|].
  rewrite fmap_cons. cbn [concat]. rewrite length_app.
  destruct g as [|e g]; [done|]. cbn [length snd]. lia.
Qed.

(** X12. A run makes at least one call and at most four calls of the
    toolkit for each group of the list, all of them to the pipeline
    configuration it was given; a run on the empty list makes none. *)
Theorem run_call_budget (pc : string) (entities : list entity)
    (st : State World) :
  ∃ new,
    calls (run'' pc entities st).2 = calls st ++ new ∧
    length (groupby entities) ≤ length new ≤ 4 * length (groupby entities) ∧
    length new ≤ 4 * length entities ∧
    (entities = [] → new = []) ∧
    Forall (λ inv, inv_pc_path inv = pc) new.
Proof.
  destruct (for_groups_calls pc (groupby entities) ∅ st
              (groupby_nonempty entities)) as (new & Hc & Hl & Hp).
  exists new. split; [done|]. split; [done|].
  assert (Hgl : length (groupby entities) ≤ length entities).
  { rewrite <- (groupby_concat entities) at 2.
    apply length_concat_nonempty, groupby_nonempty. }
  split; [lia|]. split; [|done].
  intros ->. simpl in Hl. destruct new; [done|simpl in Hl; lia].
Qed.

(** X13. For a list of entities of one type, a run is all or nothing:
    either every entity of the list has the same commands and nothing is
    logged, or the result is empty and one message is logged. *)
Theorem one_type_all_or_nothing (pc t : string) (entities : list entity)
    (st : State World) :
  entities ≠ [] → Forall (λ e : entity, e.1 = t) entities →
  groupby entities = [(t, entities)] ∧
  ∃ m st',
    run'' pc entities st = (Returned m, st') ∧
    ((∃ commands,
        (∀ e, m !! e = if bool_decide (e ∈ entities) then Some commands
                       else None) ∧
        logged st' = logged st)
     ∨ (m = ∅ ∧ ∃ msg, logged st' = logged st ++ [msg])).
Proof.
  intros Hne Hall. pose proof (groupby_one_type entities t Hne Hall) as Hg.
  split; [done|].
  unfold run_noninteractive. rewrite Hg. cbn [for_groups].
  unfold mbind, M_bind, bind, mret, M_ret, ret.
  rewrite handle_group_fetch.
  pose proof (fetch_outcome toolkit str_of_error platform pc t entities st Hne)
    as Hf.
  destruct (fetch _ _ _ _ _ _ _) as [r st1].
  destruct Hf as [Hlog [[cmds ->]|[msg ->]]].
  - eexists _, _. split; [done|]. left. exists cmds. split; [|done].
    intros e. rewrite (assign_lookup toolkit platform).
    by rewrite lookup_empty.
  - eexists _, _. split; [done|]. right. split; [done|].
    eexists. simpl. by rewrite Hlog.
Qed.

End MoreRunFacts.

Lemma one_type_all_or_nothing_witness :
  let entities := [("Task", 1234%Z); ("Task", 1235%Z)] in
  let st := Scenario.start [Scenario.ok Scenario.task_cache] in
  groupby entities = [("Task", entities)] ∧
  ∃ m st',
    Scenario.run [Scenario.ok Scenario.task_cache] entities
    = (Returned m, st') ∧
    ((∃ commands,
        (∀ e, m !! e = if bool_decide (e ∈ entities) then Some commands
                       else None) ∧
        logged st' = logged st)
     ∨ (m = ∅ ∧ ∃ msg, logged st' = logged st ++ [msg])).
Proof.
  exact (one_type_all_or_nothing Scenario.scripted Scenario.str_of_error
           "linux2" "/pc" "Task" [("Task", 1234%Z); ("Task", 1235%Z)]
           (Scenario.start [Scenario.ok Scenario.task_cache])
           ltac:(discriminate) ltac:(by repeat constructor)).
Defined.
